(** * ECIFEC contact pipeline: sliding-window limiter and submission handler

    Shallow embedding of [src/lib/rateLimit.js] and
    [src/app/api/contact/route.js].

    Conventions.
    - Clock readings ([Date.now()]) and every quantity derived from them are
      integers of [Z]; JavaScript computes them exactly below 2^53.
    - The module-level [Map] of the limiter is a [gmap string Entry] that is
      passed in and returned (explicit state passing).
    - [Date.now()] is the first argument of the function that reads it. *)

From Stdlib Require Import ZArith List Ascii String Bool Lia Floats.
From stdpp Require Import gmap strings list fin_maps pretty.

Local Open Scope Z_scope.

(** ** src/lib/rateLimit.js *)

Module RateLimit.

(** [{attempts: number[], firstAttempt: number}] *)
Record Entry := mkEntry { attempts : list Z; firstAttempt : Z }.

Record Config := mkConfig { windowMs : Z; maxRequests : Z; cleanupInterval : Z }.

Definition RATE_LIMIT_CONFIG : Config :=
  {| windowMs := 60 * 60 * 1000;
     maxRequests := 5;
     cleanupInterval := 10 * 60 * 1000 |}.

(** The value returned by [checkRateLimit]. *)
Record Result := mkResult
  { allowed : bool; remaining : Z; resetTime : Z; retryAfter : Z }.

(** [timestamp => now - timestamp < RATE_LIMIT_CONFIG.windowMs] *)
Definition inWindow (now timestamp : Z) : bool :=
  now - timestamp <? windowMs RATE_LIMIT_CONFIG.

(** [attempts.filter(timestamp => now - timestamp < windowMs)], named
    [validAttempts] in the sweep: the live attempts at clock reading [now]. *)
Definition validAttempts (now : Z) (l : list Z) : list Z :=
  List.filter (inWindow now) l.

(** [x || d] on numbers: [undefined] and [0] are both falsy. *)
Definition orElse (x : option Z) (d : Z) : Z :=
  match x with
  | Some v => if v =? 0 then d else v
  | None => d
  end.

(** [Math.ceil(x / d)] for a positive divisor. *)
Definition ceilDiv (x d : Z) : Z := - ((- x) / d).

(** [`contact:${ip}`] *)
Definition storeKey (ip : string) : string := "contact:" +:+ ip.

(** [checkRateLimit(ip)], reading the clock as [now].

    When the key is already in the map, [ipData] is the stored object itself,
    so the assignment [ipData.attempts = ...filter(...)] changes the map even
    on the path that never reaches [rateLimitStore.set]; [pruned] is the map
    after that assignment. *)
Definition checkRateLimit (now : Z) (ip : string) (rateLimitStore : gmap string Entry)
  : Result * gmap string Entry :=
  let key := storeKey ip in
  let found := rateLimitStore !! key in
  let ipData :=
    match found with
    | Some d => d
    | None => {| attempts := []; firstAttempt := now |}
    end in
  let filtered := validAttempts now (attempts ipData) in
  let ipData1 := {| attempts := filtered; firstAttempt := firstAttempt ipData |} in
  let pruned :=
    match found with
    | Some _ => <[key := ipData1]> rateLimitStore
    | None => rateLimitStore
    end in
  let currentCount := Z.of_nat (length filtered) in
  let remaining0 := Z.max 0 (maxRequests RATE_LIMIT_CONFIG - currentCount) in
  let oldestAttempt := orElse (head filtered) now in
  let resetTime0 := oldestAttempt + windowMs RATE_LIMIT_CONFIG in
  let allowed0 := currentCount <? maxRequests RATE_LIMIT_CONFIG in
  let store' :=
    if allowed0
    then <[key := {| attempts := filtered ++ [now];
                     firstAttempt := firstAttempt ipData |}]> pruned
    else pruned in
  ({| allowed := allowed0;
      remaining := if allowed0 then remaining0 - 1 else 0;
      resetTime := resetTime0;
      retryAfter := if allowed0 then 0 else ceilDiv (resetTime0 - now) 1000 |},
   store').

(** The body of the [setInterval] callback of [startCleanup], reading the
    clock as [now]: collect the expired keys, then delete each of them. *)
Definition expiredKeys (now : Z) (rateLimitStore : gmap string Entry) : list string :=
  (List.filter
     (fun kd : string * Entry =>
        Nat.eqb (length (validAttempts now (attempts (snd kd)))) 0)
     (map_to_list rateLimitStore)).*1.

Definition cleanup (now : Z) (rateLimitStore : gmap string Entry) : gmap string Entry :=
  foldl (fun m key => delete key m) rateLimitStore (expiredKeys now rateLimitStore).

(** [resetRateLimit(ip)] *)
Definition resetRateLimit (ip : string) (rateLimitStore : gmap string Entry)
  : gmap string Entry :=
  delete (storeKey ip) rateLimitStore.

(** [getRateLimitStats()] *)
Definition getRateLimitStats (rateLimitStore : gmap string Entry) : nat * Config :=
  (size rateLimitStore, RATE_LIMIT_CONFIG).

End RateLimit.

(** ** src/app/api/contact/route.js *)

Module Route.

Import RateLimit.

(** *** JavaScript values met by the handler *)

(** JavaScript values: what [JSON.parse] produces, and [undefined] for a
    property that is not there. [JObject] lists the own properties of the
    parsed object; a property is read by first match. *)
#[warnings="-register-all"]
Inductive JsValue :=
| JUndefined
| JNull
| JBool (b : bool)
| JNumber (x : float)
| JString (s : string)
| JArray (items : list JsValue)
| JObject (props : list (string * JsValue)).

(** A thrown or rejected value, as the [catch] clause reads it:
    [error.message] and [error.text]. *)
Record Thrown := mkThrown { errMessage : option string; errText : option string }.

(** ToBoolean. *)
Definition truthy (v : JsValue) : bool :=
  match v with
  | JUndefined => false
  | JNull => false
  | JBool b => b
  | JNumber x => negb (PrimFloat.eqb x 0%float || PrimFloat.is_nan x)
  | JString s => negb (String.eqb s "")
  | JArray _ => true
  | JObject _ => true
  end.

(** ToBoolean of a possibly [undefined] or [null] string. *)
Definition truthyStr (s : option string) : bool :=
  match s with
  | Some x => negb (String.eqb x "")
  | None => false
  end.

Fixpoint assoc (name : string) (props : list (string * JsValue)) : JsValue :=
  match props with
  | [] => JUndefined
  | (k, v) :: rest => if String.eqb k name then v else assoc name rest
  end.

(** [body.name]: a [TypeError] on [null] and [undefined], the own property of
    an object, [undefined] on a missing property and on a primitive or an
    array, none of which has one of the properties the handler reads. *)
Definition getProp (body : JsValue) (name : string) : Thrown + JsValue :=
  match body with
  | JNull =>
      inl {| errMessage :=
               Some ("Cannot read properties of null (reading '" +:+ name +:+ "')");
             errText := None |}
  | JUndefined =>
      inl {| errMessage :=
               Some ("Cannot read properties of undefined (reading '" +:+ name +:+ "')");
             errText := None |}
  | JObject props => inr (assoc name props)
  | _ => inr JUndefined
  end.

(** [v || d] *)
Definition orValue (v d : JsValue) : JsValue := if truthy v then v else d.

(** [a || d] where [a] is a string, [null] or [undefined]. *)
Definition orString (a : option string) (d : string) : string :=
  match a with
  | Some x => if String.eqb x "" then d else x
  | None => d
  end.

(** [a !== 'literal'] where [a] is a string or [undefined]. *)
Definition differs (a : option string) (literal : string) : bool :=
  match a with
  | Some x => negb (String.eqb x literal)
  | None => true
  end.

(** [v === 'literal'] *)
Definition isString (v : JsValue) (literal : string) : bool :=
  match v with
  | JString x => String.eqb x literal
  | _ => false
  end.

(** *** Strings: [split(',')[0]] and [trim()] *)

(** White space of [String.prototype.trim] among the code units 0..255. *)
Definition isTrimSpace (c : ascii) : bool :=
  let n := nat_of_ascii c in
  (Nat.eqb n 9 || Nat.eqb n 10 || Nat.eqb n 11 || Nat.eqb n 12
   || Nat.eqb n 13 || Nat.eqb n 32 || Nat.eqb n 160)%bool.

Fixpoint trimStart (s : string) : string :=
  match s with
  | String c rest => if isTrimSpace c then trimStart rest else s
  | EmptyString => EmptyString
  end.

Fixpoint trimEnd (s : string) : string :=
  match s with
  | String c rest =>
      match trimEnd rest with
      | EmptyString => if isTrimSpace c then EmptyString else String c EmptyString
      | kept => String c kept
      end
  | EmptyString => EmptyString
  end.

Definition trim (s : string) : string := trimEnd (trimStart s).

(** [s.split(',')[0]] *)
Fixpoint firstField (s : string) : string :=
  match s with
  | String c rest =>
      if Ascii.eqb c ","%char then EmptyString else String c (firstField rest)
  | EmptyString => EmptyString
  end.

(** *** Request, environment, collaborator, response *)

Record Request := mkRequest
  { xForwardedFor : option string;   (* request.headers.get('x-forwarded-for') *)
    xRealIp : option string;         (* request.headers.get('x-real-ip') *)
    xCsrfToken : option string;      (* request.headers.get('X-CSRF-Token') *)
    csrfCookie : option string;      (* request.cookies.get('csrf-token')?.value *)
    json : Thrown + JsValue }.       (* await request.json() *)

(** [process.env] *)
Record Env := mkEnv
  { EMAILJS_SERVICE_ID : option string;
    EMAILJS_TEMPLATE_ID : option string;
    EMAILJS_PUBLIC_KEY : option string;
    EMAILJS_PRIVATE_KEY : option string;
    EMAILJS_AUTORESPONSE_TEMPLATE_ID : option string }.

(** One call [emailjs.send(serviceId, templateId, params, {publicKey, privateKey})]. *)
Record SendCall := mkSendCall
  { sendService : option string;
    sendTemplate : option string;
    sendParams : list (string * JsValue);
    sendPublicKey : option string;
    sendPrivateKey : option string }.

Inductive HeaderValue :=
| HText (s : string)
| HNumber (n : Z)        (* n.toString() *)
| HIsoDate (ms : Z).     (* new Date(ms).toISOString() *)

Inductive ResponseBody :=
| ErrorBody (error : string) (message : option string) (retryAfterField : option Z)
| SuccessBody (message : string).

Record Response := mkResponse
  { status : Z; body : ResponseBody; headers : list (string * HeaderValue) }.

(** [new Date(ms).toISOString()]: a [RangeError] outside the range of time
    values. *)
Definition toISOString (ms : Z) : Thrown + HeaderValue :=
  if Z.abs ms <=? 8640000000000000
  then inr (HIsoDate ms)
  else inl {| errMessage := Some "Invalid time value"; errText := None |}.

(** *** The [try] block as a computation

    What the handler can change: the limiter's map, and the calls received by
    the mail collaborator. *)
Record World := mkWorld
  { rateLimitStore : gmap string Entry; sent : list SendCall }.

(** A step either throws or returns, in a world it may have changed. *)
Definition Try (A : Type) : Type := World -> (Thrown + A) * World.

Definition ret {A} (a : A) : Try A := fun w => (inr a, w).
Definition throw {A} (e : Thrown) : Try A := fun w => (inl e, w).
Definition bind {A B} (m : Try A) (k : A -> Try B) : Try B :=
  fun w =>
    match m w with
    | (inr a, w') => k a w'
    | (inl e, w') => (inl e, w')
    end.
Definition lift {A} (r : Thrown + A) : Try A := fun w => (r, w).

Notation "'let*' x ':=' m 'in' k" := (bind m (fun x => k))
  (at level 10, x name, m at level 100, k at level 200).

(** [checkRateLimit(ip)] on the module's map. *)
Definition callCheckRateLimit (now : Z) (ip : string) : Try Result :=
  fun w =>
    let '(r, store') := checkRateLimit now ip (rateLimitStore w) in
    (inr r, {| rateLimitStore := store'; sent := sent w |}).

(** [await emailjs.send(...)]: the collaborator [send] answers [None] when the
    promise resolves and [Some e] when it rejects with [e]. *)
Definition emailjs_send (send : SendCall -> option Thrown) (call : SendCall) : Try unit :=
  fun w =>
    let w' := {| rateLimitStore := rateLimitStore w; sent := sent w ++ [call] |} in
    match send call with
    | None => (inr tt, w')
    | Some e => (inl e, w')
    end.

(** [!body.field] *)
Definition missing (body : JsValue) (field : string) : Try bool :=
  let* v := lift (getProp body field) in ret (negb (truthy v)).

(** [a || b] on conditions, [b] evaluated only when [a] is false. *)
Definition orElseTry (a b : Try bool) : Try bool :=
  let* x := a in if x then ret true else b.

(** The client key: first forwarded address, else the real-IP header, else
    the literal ['unknown']. *)
Definition clientIp (request : Request) : string :=
  orString (option_map (fun v => trim (firstField v)) (xForwardedFor request))
    (orString (xRealIp request) "unknown").

(** [!csrfTokenFromCookie || csrfTokenFromCookie !== csrfTokenFromHeader] *)
Definition csrfInvalid (csrfTokenFromCookie csrfTokenFromHeader : option string) : bool :=
  negb (truthyStr csrfTokenFromCookie)
  || match csrfTokenFromCookie, csrfTokenFromHeader with
     | Some c, Some h => negb (String.eqb c h)
     | _, _ => true     (* [undefined], [null] and a string differ pairwise *)
     end.

Definition requestTypeLabel (requestType : JsValue) : string :=
  if isString requestType "devis" then "Demande de devis"
  else if isString requestType "rendez-vous" then "Prise de rendez-vous"
  else "Question générale".

Definition tooManyRequests (rateLimitResult : Result) : Try Response :=
  let* reset := lift (toISOString (resetTime rateLimitResult)) in
  ret {| status := 429;
         body := ErrorBody "Trop de tentatives. Veuillez patienter avant de réessayer."
                   None (Some (retryAfter rateLimitResult));
         headers := [("Retry-After", HNumber (retryAfter rateLimitResult));
                     ("X-RateLimit-Limit", HText "5");
                     ("X-RateLimit-Remaining", HText "0");
                     ("X-RateLimit-Reset", reset)] |}.

Definition invalidCsrf : Response :=
  {| status := 403; body := ErrorBody "Invalid CSRF token" None None; headers := [] |}.

Definition missingFields : Response :=
  {| status := 400; body := ErrorBody "Missing required fields" None None; headers := [] |}.

Definition notConfigured : Response :=
  {| status := 500; body := ErrorBody "Email service not configured" None None;
     headers := [] |}.

Definition emailSent (rateLimitResult : Result) : Try Response :=
  let* reset := lift (toISOString (resetTime rateLimitResult)) in
  ret {| status := 200;
         body := SuccessBody "Email sent successfully";
         headers := [("X-RateLimit-Limit", HText "5");
                     ("X-RateLimit-Remaining", HNumber (remaining rateLimitResult));
                     ("X-RateLimit-Reset", reset)] |}.

(** The [catch] clause. *)
Definition failedToSend (error : Thrown) : Response :=
  {| status := 500;
     body := ErrorBody "Failed to send email"
               (Some (orString (errMessage error)
                        (orString (errText error) "An error occurred")))
               None;
     headers := [] |}.

(** From the credentials to the success response. *)
Definition dispatch (env : Env) (send : SendCall -> option Thrown)
    (ip : string) (rateLimitResult : Result) (body : JsValue) : Try Response :=
  let serviceId := EMAILJS_SERVICE_ID env in
  let templateId := EMAILJS_TEMPLATE_ID env in
  let publicKey := EMAILJS_PUBLIC_KEY env in
  let privateKey := EMAILJS_PRIVATE_KEY env in
  if negb (truthyStr serviceId) || negb (truthyStr templateId)
     || negb (truthyStr publicKey)
  then ret notConfigured
  else
    let* name := lift (getProp body "name") in
    let* email := lift (getProp body "email") in
    let* phone := lift (getProp body "phone") in
    let* requestType := lift (getProp body "requestType") in
    let* sector := lift (getProp body "sector") in
    let* message := lift (getProp body "message") in
    let request_type := requestTypeLabel requestType in
    let templateParams :=
      [("from_name", name);
       ("from_email", email);
       ("phone", orValue phone (JString "Non renseigné"));
       ("request_type", JString request_type);
       ("sector", orValue sector (JString "Non spécifié"));
       ("message", message);
       ("ip_address", JString ip)] in
    let* _ := emailjs_send send
                {| sendService := serviceId; sendTemplate := templateId;
                   sendParams := templateParams;
                   sendPublicKey := publicKey; sendPrivateKey := privateKey |} in
    let autoresponseTemplateId := EMAILJS_AUTORESPONSE_TEMPLATE_ID env in
    let* _ :=
      if truthyStr autoresponseTemplateId
         && differs autoresponseTemplateId "your_autoresponse_template_id_here"
      then emailjs_send send
             {| sendService := serviceId; sendTemplate := autoresponseTemplateId;
                sendParams := [("to_name", name);
                               ("to_email", email);
                               ("request_type", JString request_type)];
                sendPublicKey := publicKey; sendPrivateKey := privateKey |}
      else ret tt in
    emailSent rateLimitResult.

(** The [try] block of [POST]. *)
Definition tryPOST (now : Z) (env : Env) (send : SendCall -> option Thrown)
    (request : Request) : Try Response :=
  let ip := clientIp request in
  let* rateLimitResult := callCheckRateLimit now ip in
  if negb (allowed rateLimitResult) then tooManyRequests rateLimitResult
  else
    let csrfTokenFromCookie := csrfCookie request in
    let csrfTokenFromHeader := xCsrfToken request in
    if csrfInvalid csrfTokenFromCookie csrfTokenFromHeader then ret invalidCsrf
    else
      let* body := lift (json request) in
      let* invalid :=
        orElseTry (missing body "name")
          (orElseTry (missing body "email")
             (orElseTry (missing body "message") (missing body "rgpd"))) in
      if invalid then ret missingFields
      else dispatch env send ip rateLimitResult body.

(** [POST(request)]: the clock is [now], the environment [env], the mail
    collaborator [send]; the result is the response and the world left behind. *)
Definition POST (now : Z) (env : Env) (send : SendCall -> option Thrown)
    (request : Request) (w : World) : Response * World :=
  match tryPOST now env send request w with
  | (inr response, w') => (response, w')
  | (inl error, w') => (failedToSend error, w')
  end.





End Route.

(** ** Specification-side vocabulary: the limiter *)

Module Spec.

Import RateLimit.

(** Successive calls for one client, one clock reading per call. *)
Fixpoint checkRateLimitSeq (ip : string) (clock : list Z) (s : gmap string Entry)
  : list Result * gmap string Entry :=
  match clock with
  | [] => ([], s)
  | now :: clock' =>
      let '(r, s1) := checkRateLimit now ip s in
      let '(rs, s2) := checkRateLimitSeq ip clock' s1 in
      (r :: rs, s2)
  end.

(** The attempts recorded for a key, [[]] when the key is not tracked. *)
Definition attemptsOf (key : string) (s : gmap string Entry) : list Z :=
  match s !! key with
  | Some d => attempts d
  | None => []
  end.

(** The stores the module can hold: the map starts empty and is only ever
    changed by [checkRateLimit], by the periodic sweep and by
    [resetRateLimit]. *)
Inductive reachable : gmap string Entry -> Prop :=
| reach_empty : reachable ∅
| reach_check now ip s : reachable s -> reachable (snd (checkRateLimit now ip s))
| reach_cleanup now s : reachable s -> reachable (cleanup now s)
| reach_reset ip s : reachable s -> reachable (resetRateLimit ip s).

(** Clock readings that all fall in one window: every reading is less than
    [windowMs] after each reading before it. *)
Fixpoint withinWindow (clock : list Z) : Prop :=
  match clock with
  | [] => True
  | t :: later =>
      Forall (fun u => u - t < windowMs RATE_LIMIT_CONFIG) later /\ withinWindow later
  end.



(** No entry holds more attempts than the quota. *)
Definition bounded (s : gmap string Entry) : Prop :=
  map_Forall
    (fun _ d => Z.of_nat (length (attempts d)) <= maxRequests RATE_LIMIT_CONFIG) s.

End Spec.

(** ** Specification-side vocabulary: the handler *)

Module RouteSpec.

Import RateLimit Route.

(** [null] and [undefined]: the values on which reading a property throws. *)
Definition nullish (v : JsValue) : bool :=
  match v with
  | JNull | JUndefined => true
  | _ => false
  end.

(** The value read as [body.name] when the read does not throw. *)
Definition field (body : JsValue) (name : string) : JsValue :=
  match getProp body name with
  | inr v => v
  | inl _ => JUndefined
  end.

(** All four mandatory fields are truthy. *)
Definition allPresent (body : JsValue) : bool :=
  truthy (field body "name") && truthy (field body "email")
  && truthy (field body "message") && truthy (field body "rgpd").

(** The three credentials the configuration guard reads are truthy. *)
Definition configured (env : Env) : bool :=
  truthyStr (EMAILJS_SERVICE_ID env) && truthyStr (EMAILJS_TEMPLATE_ID env)
  && truthyStr (EMAILJS_PUBLIC_KEY env).

(** The primary call to the mail collaborator. *)
Definition primaryCall (env : Env) (ip : string) (body : JsValue) : SendCall :=
  {| sendService := EMAILJS_SERVICE_ID env;
     sendTemplate := EMAILJS_TEMPLATE_ID env;
     sendParams :=
       [("from_name", field body "name");
        ("from_email", field body "email");
        ("phone", orValue (field body "phone") (JString "Non renseigné"));
        ("request_type", JString (requestTypeLabel (field body "requestType")));
        ("sector", orValue (field body "sector") (JString "Non spécifié"));
        ("message", field body "message");
        ("ip_address", JString ip)];
     sendPublicKey := EMAILJS_PUBLIC_KEY env;
     sendPrivateKey := EMAILJS_PRIVATE_KEY env |}.

(** A step that leaves the limiter's map as it found it. *)
Definition keepsStore {A} (m : Try A) : Prop :=
  forall w, rateLimitStore (snd (m w)) = rateLimitStore w.

(** A step that, when it returns a response, returns one satisfying [P]. *)
Definition answers (P : Response -> Prop) (m : Try Response) : Prop :=
  forall w, match fst (m w) with inr response => P response | inl _ => True end.

(** The world right after the limiter has been consulted. *)
Definition afterCheck (now : Z) (request : Request) (w : World) : World :=
  {| rateLimitStore :=
       snd (checkRateLimit now (clientIp request) (rateLimitStore w));
     sent := sent w |}.


End RouteSpec.

(** ** Sample data *)

Module Samples.

Import RateLimit Route.

Definition env0 : Env :=
  {| EMAILJS_SERVICE_ID := Some "service_x";
     EMAILJS_TEMPLATE_ID := Some "template_y";
     EMAILJS_PUBLIC_KEY := Some "public_z";
     EMAILJS_PRIVATE_KEY := None;
     EMAILJS_AUTORESPONSE_TEMPLATE_ID := None |}.

(** A collaborator that accepts every call. *)
Definition sendOk (call : SendCall) : option Thrown := None.

(** A collaborator that rejects a call made without a private key. *)
Definition sendStrict (call : SendCall) : option Thrown :=
  match sendPrivateKey call with
  | Some _ => None
  | None => Some {| errMessage := None; errText := Some "Private key required" |}
  end.

Definition payload (rgpd : JsValue) : JsValue :=
  JObject [("name", JString "Ada"); ("email", JString "ada@example.org");
           ("requestType", JString "devis"); ("message", JString "Bonjour");
           ("rgpd", rgpd)].

Definition submission (cookie header : option string) (parsed : Thrown + JsValue)
  : Request :=
  {| xForwardedFor := Some "1.2.3.4, 10.0.0.1";
     xRealIp := None;
     xCsrfToken := header;
     csrfCookie := cookie;
     json := parsed |}.

Definition world0 : World := {| rateLimitStore := ∅; sent := [] |}.

End Samples.

(** ** Specification-side vocabulary: traces of calls *)

Module Trace.

Import RateLimit Spec.

(** The clock readings of the calls of a sequence that were admitted, in
    order. *)
Fixpoint admittedTimes (ip : string) (clock : list Z) (s : gmap string Entry)
  : list Z :=
  match clock with
  | [] => []
  | now :: clock' =>
      let '(r, s1) := checkRateLimit now ip s in
      (if allowed r then [now] else []) ++ admittedTimes ip clock' s1
  end.

(** A clock that never goes back: readings in non-decreasing order, none
    before [start]. *)
Fixpoint monotone (start : Z) (clock : list Z) : Prop :=
  match clock with
  | [] => True
  | now :: clock' => start <= now /\ monotone now clock'
  end.

(** The last reading of a clock, [start] when there is none. *)
Fixpoint lastReading (start : Z) (clock : list Z) : Z :=
  match clock with
  | [] => start
  | now :: clock' => lastReading now clock'
  end.

End Trace.

(** ** Specification-side vocabulary: the dispatch *)

Module Dispatch.

Import RateLimit Route RouteSpec.

(** The autoresponse is sent: its template is set and is not the
    placeholder of the sample configuration. *)
Definition autoresponseEnabled (env : Env) : bool :=
  truthyStr (EMAILJS_AUTORESPONSE_TEMPLATE_ID env)
  && differs (EMAILJS_AUTORESPONSE_TEMPLATE_ID env)
       "your_autoresponse_template_id_here".

(** The autoresponse call to the mail collaborator. *)
Definition autoresponseCall (env : Env) (body : JsValue) : SendCall :=
  {| sendService := EMAILJS_SERVICE_ID env;
     sendTemplate := EMAILJS_AUTORESPONSE_TEMPLATE_ID env;
     sendParams :=
       [("to_name", field body "name");
        ("to_email", field body "email");
        ("request_type", JString (requestTypeLabel (field body "requestType")))];
     sendPublicKey := EMAILJS_PUBLIC_KEY env;
     sendPrivateKey := EMAILJS_PRIVATE_KEY env |}.

(** The 429 response. *)
Definition rateLimited (r : Result) : Response :=
  {| status := 429;
     body := ErrorBody "Trop de tentatives. Veuillez patienter avant de réessayer."
               None (Some (retryAfter r));
     headers := [("Retry-After", HNumber (retryAfter r));
                 ("X-RateLimit-Limit", HText "5");
                 ("X-RateLimit-Remaining", HText "0");
                 ("X-RateLimit-Reset", HIsoDate (resetTime r))] |}.

(** The 200 response. *)
Definition sentOk (r : Result) : Response :=
  {| status := 200;
     body := SuccessBody "Email sent successfully";
     headers := [("X-RateLimit-Limit", HText "5");
                 ("X-RateLimit-Remaining", HNumber (remaining r));
                 ("X-RateLimit-Reset", HIsoDate (resetTime r))] |}.

(** Time values a [Date] can hold. *)
Definition validDate (ms : Z) : bool := Z.abs ms <=? 8640000000000000.

(** What [toISOString] throws outside that range. *)
Definition rangeError : Thrown :=
  {| errMessage := Some "Invalid time value"; errText := None |}.

(** The answer once every call to the collaborator was accepted. *)
Definition finish (r : Result) : Response :=
  if validDate (resetTime r) then sentOk r else failedToSend rangeError.

(** The world after some more calls to the collaborator. *)
Definition addSent (w : World) (calls : list SendCall) : World :=
  {| rateLimitStore := rateLimitStore w; sent := sent w ++ calls |}.

(** The handler as a decision table: each row is one way through [POST],
    with the response and the world it ends in. *)
Definition outcome (now : Z) (env : Env) (send : SendCall -> option Thrown)
    (request : Request) (w : World) : Response * World :=
  let ip := clientIp request in
  let r := fst (checkRateLimit now ip (rateLimitStore w)) in
  let w1 := afterCheck now request w in
  if negb (allowed r)
  then (if validDate (resetTime r) then rateLimited r else failedToSend rangeError, w1)
  else if csrfInvalid (csrfCookie request) (xCsrfToken request)
  then (invalidCsrf, w1)
  else
    match json request with
    | inl error => (failedToSend error, w1)
    | inr body =>
        match getProp body "name" with
        | inl error => (failedToSend error, w1)
        | inr _ =>
            if negb (allPresent body) then (missingFields, w1)
            else if negb (configured env) then (notConfigured, w1)
            else
              let primary := primaryCall env ip body in
              match send primary with
              | Some error => (failedToSend error, addSent w1 [primary])
              | None =>
                  if autoresponseEnabled env
                  then
                    let auto := autoresponseCall env body in
                    match send auto with
                    | Some error =>
                        (failedToSend error, addSent w1 [primary; auto])
                    | None => (finish r, addSent w1 [primary; auto])
                    end
                  else (finish r, addSent w1 [primary])
              end
        end
    end.

(** Successive requests, each with the clock reading at which it is handled,
    the handler running them one after the other. *)
Fixpoint POSTSeq (env : Env) (send : SendCall -> option Thrown)
    (calls : list (Z * Request)) (w : World) : list Response * World :=
  match calls with
  | [] => ([], w)
  | (now, request) :: calls' =>
      let '(response, w1) := POST now env send request w in
      let '(responses, w2) := POSTSeq env send calls' w1 in
      (response :: responses, w2)
  end.

End Dispatch.

(** ** src/middleware.js *)

Module Middleware.

Import Route.

(** The options of [response.cookies.set]. *)
Record CookieOptions := mkCookieOptions
  { httpOnly : bool; secure : bool; sameSite : string; path : string }.

Record SetCookie := mkSetCookie
  { cookieName : string; cookieValue : string; cookieOptions : CookieOptions }.

(** [middleware(request)]: the response is [NextResponse.next()], to which
    at most one cookie is added; the result is that cookie, if any.
    [csrfToken] is [request.cookies.get('csrf-token')?.value], [nodeEnv] is
    [process.env.NODE_ENV], [randomUUID] the value [crypto.randomUUID()]
    returns when it is called. *)
Definition middleware (nodeEnv : option string) (randomUUID : string)
    (csrfToken : option string) : option SetCookie :=
  if negb (truthyStr csrfToken)
  then
    let newToken := randomUUID in
    Some {| cookieName := "csrf-token";
            cookieValue := newToken;
            cookieOptions :=
              {| httpOnly := false;
                 secure := negb (differs nodeEnv "production");
                 sameSite := "strict";
                 path := "/" |} |}
  else None.

End Middleware.

(** ** src/components/contact/ContactForm.jsx: [onSubmit] *)

Module ContactForm.

Import RateLimit Route.

(** [s.split(sep)] for a separator that is not empty: [skip] counts the
    characters of a separator still to be passed over, [current] is the
    piece being read. *)
Fixpoint splitFrom (sep : string) (skip : nat) (current : string) (s : string)
  : list string :=
  match s with
  | EmptyString => [current]
  | String c rest =>
      match skip with
      | S k => splitFrom sep k current rest
      | O =>
          if String.prefix sep s
          then current :: splitFrom sep (String.length sep - 1) "" rest
          else splitFrom sep 0 (current +:+ String c "") rest
      end
  end.

Definition split (sep s : string) : list string := splitFrom sep 0 "" s.

(** [s.startsWith(p)] *)
Definition startsWith (p s : string) : bool := String.prefix p s.

(** [s.includes(needle)] *)
Fixpoint includes (needle s : string) : bool :=
  String.prefix needle s
  || match s with
     | String _ rest => includes needle rest
     | EmptyString => false
     end.

(** [document.cookie.split('; ').find(row => row.startsWith('csrf-token='))
    ?.split('=')[1]] *)
Definition csrfTokenFromCookie (documentCookie : string) : option string :=
  match List.find (startsWith "csrf-token=") (split "; " documentCookie) with
  | Some row => nth_error (split "=" row) 1
  | None => None
  end.

(** The header the form sends: ['X-CSRF-Token': csrfToken || '']. *)
Definition csrfHeader (documentCookie : string) : string :=
  orString (csrfTokenFromCookie documentCookie) "".

(** The message of the error thrown for a 429 that carries [retryAfter]. *)
Definition rateLimitMessage (retryAfter : Z) : string :=
  let minutes := ceilDiv retryAfter 60 in
  let seconds := Z.rem retryAfter 60 in
  let timeMsg :=
    if 0 <? minutes
    then pretty minutes +:+ " minute" +:+ (if 1 <? minutes then "s" else "")
    else pretty seconds +:+ " seconde" +:+ (if 1 <? seconds then "s" else "") in
  "Trop de tentatives. Veuillez patienter " +:+ timeMsg +:+ " avant de réessayer.".

(** The message of the error thrown when [response.ok] is false; [result] is
    the parsed body of the response. *)
Definition thrownMessage (response : Response) : string :=
  match body response with
  | ErrorBody error message retryAfterField =>
      match retryAfterField with
      | Some retryAfter =>
          if (status response =? 429) && negb (retryAfter =? 0)
          then rateLimitMessage retryAfter
          else orString (Some error) (orString message "Erreur lors de l'envoi")
      | None => orString (Some error) (orString message "Erreur lors de l'envoi")
      end
  | SuccessBody message =>
      orString None (orString (Some message) "Erreur lors de l'envoi")
  end.

(** The [catch] clause: the message shown in the snackbar for an error whose
    [message] is [errorMessage]. *)
Definition shownMessage (errorMessage : string) : string :=
  if includes "CSRF" errorMessage || includes "Invalid CSRF token" errorMessage
  then "Erreur de sécurité. Veuillez rafraîchir la page et réessayer."
  else if includes "Trop de tentatives" errorMessage then errorMessage
  else if negb (String.eqb errorMessage "") then errorMessage
  else "Une erreur est survenue. Veuillez réessayer ou nous contacter par téléphone.".

(** What the user gets once the response has arrived. *)
Inductive FormOutcome :=
| Redirected (route : string)      (* router.push(route) *)
| Snackbar (message : string).     (* setSnackbar({open: true, message, severity: 'error'}) *)

(** [response.ok] *)
Definition ok (response : Response) : bool :=
  (200 <=? status response) && (status response <=? 299).

Definition afterResponse (response : Response) : FormOutcome :=
  if negb (ok response)
  then Snackbar (shownMessage (thrownMessage response))
  else Redirected "/contact/confirmation".

End ContactForm.

(** ** Specification-side vocabulary: cookies *)

Module Cookies.

(** The string has no occurrence of the character. *)
Definition without (c : ascii) (s : string) : Prop :=
  ~ In c (list_ascii_of_string s).

(** [rows.join(sep)]: how the browser lays out [document.cookie], with
    [sep = '; ']. *)
Fixpoint join (sep : string) (rows : list string) : string :=
  match rows with
  | [] => ""
  | [row] => row
  | row :: more => row +:+ sep +:+ join sep more
  end.

(** The [error] field of the body of a response, [""] when it has none. *)
Definition errorText (response : Route.Response) : string :=
  match Route.body response with
  | Route.ErrorBody error _ _ => error
  | Route.SuccessBody _ => ""
  end.

End Cookies.

Import RateLimit Spec Route RouteSpec Samples.
Import Trace.
Import Dispatch.
Import Middleware ContactForm Cookies.

(** ** The limiter: one call *)

Section OneCall.

Variables (now : Z) (ip : string) (s : gmap string Entry).

Let key := storeKey ip.
Let live := validAttempts now (attemptsOf key s).
Let count := Z.of_nat (length live).

Lemma check_allowed :
  allowed (fst (checkRateLimit now ip s)) = (count <? maxRequests RATE_LIMIT_CONFIG).
Proof.
  subst count live key. unfold checkRateLimit, attemptsOf.
  destruct (s !! storeKey ip); reflexivity.
Qed.

Lemma check_remaining :
  remaining (fst (checkRateLimit now ip s))
  = if count <? maxRequests RATE_LIMIT_CONFIG
    then Z.max 0 (maxRequests RATE_LIMIT_CONFIG - count) - 1 else 0.
Proof.
  subst count live key. unfold checkRateLimit, attemptsOf.
  destruct (s !! storeKey ip); reflexivity.
Qed.

Lemma check_resetTime :
  resetTime (fst (checkRateLimit now ip s))
  = orElse (head live) now + windowMs RATE_LIMIT_CONFIG.
Proof.
  subst count live key. unfold checkRateLimit, attemptsOf.
  destruct (s !! storeKey ip); reflexivity.
Qed.

Lemma check_retryAfter :
  retryAfter (fst (checkRateLimit now ip s))
  = if count <? maxRequests RATE_LIMIT_CONFIG then 0
    else ceilDiv (orElse (head live) now + windowMs RATE_LIMIT_CONFIG - now) 1000.
Proof.
  subst count live key. unfold checkRateLimit, attemptsOf.
  destruct (s !! storeKey ip); reflexivity.
Qed.

Lemma check_attempts :
  attemptsOf key (snd (checkRateLimit now ip s))
  = if count <? maxRequests RATE_LIMIT_CONFIG then live ++ [now] else live.
Proof.
  subst count live key. unfold checkRateLimit, attemptsOf.
  destruct (s !! storeKey ip) as [d|] eqn:E; cbn [snd attempts firstAttempt].
  - destruct (_ <? _).
    + rewrite lookup_insert_eq. reflexivity.
    + rewrite lookup_insert_eq. reflexivity.
  - cbn [validAttempts List.filter length].
    change (Z.of_nat 0 <? maxRequests RATE_LIMIT_CONFIG) with true. cbn iota.
    rewrite lookup_insert_eq. reflexivity.
Qed.

Lemma check_other (k : string) :
  k <> key -> snd (checkRateLimit now ip s) !! k = s !! k.
Proof.
  intros Hk. subst count live key. unfold checkRateLimit.
  destruct (s !! storeKey ip) as [d|] eqn:E; cbn [snd];
    destruct (_ <? _); rewrite ?lookup_insert_ne by congruence; reflexivity.
Qed.

End OneCall.

Lemma validAttempts_elem (now t : Z) (l : list Z) :
  In t (validAttempts now l) <-> In t l /\ now - t < windowMs RATE_LIMIT_CONFIG.
Proof.
  unfold validAttempts. rewrite filter_In. unfold inWindow.
  rewrite Z.ltb_lt. reflexivity.
Qed.

Lemma ceilDiv_bounds (x : Z) :
  1000 * (ceilDiv x 1000 - 1) < x <= 1000 * ceilDiv x 1000.
Proof. unfold ceilDiv. Z.div_mod_to_equations. lia. Qed.





(** ** The limiter: successive calls *)

Lemma validAttempts_all (now : Z) (l : list Z) :
  (forall t, In t l -> now - t < windowMs RATE_LIMIT_CONFIG) ->
  validAttempts now l = l.
Proof.
  induction l as [|t l IH]; intros H; cbn; [reflexivity|].
  unfold inWindow at 1.
  destruct (Z.ltb_spec (now - t) (windowMs RATE_LIMIT_CONFIG)) as [_|Hge].
  - f_equal. apply IH. intros u Hu. apply H. now right.
  - specialize (H t (or_introl eq_refl)). lia.
Qed.

Lemma withinWindow_snoc (clock : list Z) (next : Z) :
  withinWindow (clock ++ [next]) ->
  withinWindow clock
  /\ forall t, In t clock -> next - t < windowMs RATE_LIMIT_CONFIG.
Proof.
  induction clock as [|t clock IH]; cbn [app withinWindow].
  - intros _. split; [exact I | intros t []].
  - intros [Hall Hrest]. destruct (IH Hrest) as [Hw Hn].
    apply Forall_app in Hall as [Hclock Hnext].
    split; [split; assumption|].
    intros u [<-|Hu]; [|now apply Hn].
    now inversion Hnext.
Qed.

Section Successive.

Variable ip : string.

Let key := storeKey ip.

(** While the recorded attempts and the coming clock readings fit in one
    window and in the quota, every call is admitted, the [i]-th one with
    [maxRequests - i - 1] remaining, and every reading is recorded. *)
Lemma seq_admitted (clock : list Z) :
  forall (s : gmap string Entry) (l : list Z),
    attemptsOf key s = l ->
    (forall t u, In t l -> In u clock -> u - t < windowMs RATE_LIMIT_CONFIG) ->
    withinWindow clock ->
    Z.of_nat (length l + length clock) <= maxRequests RATE_LIMIT_CONFIG ->
    List.map allowed (fst (checkRateLimitSeq ip clock s))
    = repeat true (length clock)
    /\ List.map remaining (fst (checkRateLimitSeq ip clock s))
       = List.map (fun i => maxRequests RATE_LIMIT_CONFIG - Z.of_nat i - 1)
           (seq (length l) (length clock))
    /\ attemptsOf key (snd (checkRateLimitSeq ip clock s)) = l ++ clock.
Proof.
  induction clock as [|now clock IH]; intros s l Hl Hold Hwin Hlen.
  - cbn. rewrite app_nil_r. auto.
  - cbn [checkRateLimitSeq].
    pose proof (check_allowed now ip s) as Ha.
    pose proof (check_remaining now ip s) as Hr.
    pose proof (check_attempts now ip s) as Hs.
    fold key in Ha, Hr, Hs. rewrite Hl in Ha, Hr, Hs.
    rewrite validAttempts_all in Ha, Hr, Hs
      by (intros t Ht; apply (Hold t now Ht); now left).
    cbn [length] in Hlen.
    assert (Hlt : (Z.of_nat (length l) <? maxRequests RATE_LIMIT_CONFIG) = true)
      by (apply Z.ltb_lt; lia).
    rewrite Hlt in Ha, Hr, Hs.
    destruct (checkRateLimit now ip s) as [r s1]. cbn [fst snd] in Ha, Hr, Hs.
    destruct Hwin as [Hhead Hwin].
    specialize (IH s1 (l ++ [now]) Hs).
    destruct IH as (IHa & IHr & IHs).
    + intros t u Ht Hu. apply in_app_or in Ht as [Ht|[<-|[]]].
      * apply (Hold t u Ht). now right.
      * rewrite Forall_forall in Hhead. apply Hhead. now apply list_elem_of_In.
    + exact Hwin.
    + rewrite length_app. cbn [length]. lia.
    + destruct (checkRateLimitSeq ip clock s1) as [rs s2].
      cbn [fst snd List.map length repeat seq] in *.
      rewrite Ha, Hr, IHa, IHs, IHr, <- app_assoc.
      rewrite length_app. cbn [length]. rewrite Nat.add_1_r.
      repeat split. f_equal. lia.
Qed.

End Successive.

(** C1. From a key with no recorded attempt, [maxRequests] (five) calls whose
    clock readings fall in one window are all admitted, with [remaining]
    4, 3, 2, 1, 0 in turn, and a further call in the same window is denied. *)
Theorem quota_then_denied (ip : string) (s : gmap string Entry)
    (clock : list Z) (next : Z) :
  attemptsOf (storeKey ip) s = [] ->
  length clock = Z.to_nat (maxRequests RATE_LIMIT_CONFIG) ->
  withinWindow (clock ++ [next]) ->
  let rs := fst (checkRateLimitSeq ip clock s) in
  let s' := snd (checkRateLimitSeq ip clock s) in
  List.map allowed rs = [true; true; true; true; true]
  /\ List.map remaining rs = [4; 3; 2; 1; 0]
  /\ allowed (fst (checkRateLimit next ip s')) = false.
Proof.
  intros Hempty Hlen Hwin rs s'.
  apply withinWindow_snoc in Hwin as [Hwin Hnext].
  destruct (seq_admitted ip clock s [] Hempty) as (Ha & Hr & Hs).
  - intros t u [].
  - exact Hwin.
  - cbn [length]. rewrite Hlen. cbn. lia.
  - fold rs s' in Ha, Hr, Hs. rewrite Hlen in Ha, Hr.
    split; [exact Ha|]. split; [exact Hr|].
    rewrite check_allowed, Hs. cbn [app].
    rewrite (validAttempts_all next clock Hnext), Hlen. reflexivity.
Qed.

Lemma quota_then_denied_witness :
  let ip := "1.2.3.4" in
  let clock := [1000; 2000; 2000; 900000; 3600999] in
  let rs := fst (checkRateLimitSeq ip clock ∅) in
  let s' := snd (checkRateLimitSeq ip clock ∅) in
  List.map allowed rs = [true; true; true; true; true]
  /\ List.map remaining rs = [4; 3; 2; 1; 0]
  /\ allowed (fst (checkRateLimit 3600999 ip s')) = false.
Proof.
  intros ip clock.
  apply (quota_then_denied ip ∅ clock 3600999).
  - reflexivity.
  - reflexivity.
  - cbn. repeat (split || constructor); lia.
Defined.

(** ** The periodic sweep *)

Lemma foldl_delete_lookup (keys : list string) :
  forall (s : gmap string Entry) (k : string),
    foldl (fun m key => delete key m) s keys !! k
    = if decide (k ∈ keys) then None else s !! k.
Proof.
  induction keys as [|a keys IH]; intros s k; cbn [foldl].
  - rewrite decide_False by apply not_elem_of_nil. reflexivity.
  - rewrite IH. destruct (decide (k ∈ keys)) as [Hin|Hout].
    + rewrite decide_True by (now right). reflexivity.
    + destruct (decide (k = a)) as [->|Hne].
      * rewrite decide_True by left. apply lookup_delete_eq.
      * rewrite decide_False by (rewrite elem_of_cons; tauto).
        now apply lookup_delete_ne.
Qed.

Lemma expiredKeys_elem (now : Z) (s : gmap string Entry) (k : string) :
  k ∈ expiredKeys now s
  <-> exists d, s !! k = Some d /\ validAttempts now (attempts d) = [].
Proof.
  unfold expiredKeys. rewrite list_elem_of_fmap. split.
  - intros ([k' d] & -> & Hin). apply list_elem_of_In, filter_In in Hin.
    destruct Hin as [Hin Hdead]. apply list_elem_of_In, elem_of_map_to_list in Hin.
    exists d. split; [exact Hin|]. cbn in Hdead.
    apply Nat.eqb_eq in Hdead. now destruct (validAttempts now (attempts d)).
  - intros (d & Hk & Hdead). exists (k, d). split; [reflexivity|].
    apply list_elem_of_In, filter_In. split.
    + now apply list_elem_of_In, elem_of_map_to_list.
    + cbn. now rewrite Hdead.
Qed.

Lemma cleanup_lookup (now : Z) (s : gmap string Entry) (k : string) :
  cleanup now s !! k
  = match s !! k with
    | Some d =>
        match validAttempts now (attempts d) with
        | [] => None
        | _ :: _ => Some d
        end
    | None => None
    end.
Proof.
  unfold cleanup. rewrite foldl_delete_lookup.
  destruct (decide (k ∈ expiredKeys now s)) as [Hin|Hout].
  - apply expiredKeys_elem in Hin as (d & -> & ->). reflexivity.
  - destruct (s !! k) as [d|] eqn:Hk; [|reflexivity].
    destruct (validAttempts now (attempts d)) eqn:Hlive; [|reflexivity].
    exfalso. apply Hout, expiredKeys_elem. eauto.
Qed.

Lemma validAttempts_nil (now : Z) (l : list Z) :
  validAttempts now l = []
  <-> ~ Exists (fun t => now - t < windowMs RATE_LIMIT_CONFIG) l.
Proof.
  rewrite List.Exists_exists. split.
  - intros Hnil (t & Ht & Hlive).
    assert (Hin : In t (validAttempts now l))
      by (apply validAttempts_elem; split; assumption).
    rewrite Hnil in Hin. destruct Hin.
  - intros Hnone. destruct (validAttempts now l) as [|t rest] eqn:E; [reflexivity|].
    exfalso. apply Hnone. exists t. apply validAttempts_elem.
    rewrite E. now left.
Qed.

(** C6. One run of the sweep at clock reading [now] keeps exactly the entries
    that have at least one attempt [t] with [now - t < windowMs], each as it
    was, and removes all the others: an entry with a live attempt stays,
    however close to expiry that attempt is. *)
Theorem cleanup_removes_exactly_expired (now : Z) (s : gmap string Entry) :
  cleanup now s
  = filter
      (fun kd : string * Entry =>
         Exists (fun t => now - t < windowMs RATE_LIMIT_CONFIG) (attempts (snd kd)))
      s.
Proof.
  apply map_eq. intros k. rewrite cleanup_lookup, map_lookup_filter.
  destruct (s !! k) as [d|]; cbn; [|reflexivity].
  destruct (validAttempts now (attempts d)) as [|t rest] eqn:E.
  - apply validAttempts_nil in E. now rewrite option_guard_False.
  - rewrite option_guard_True; [reflexivity|].
    apply List.Exists_exists. exists t. apply validAttempts_elem. rewrite E. now left.
Qed.

Example cleanup_keeps_about_to_expire :
  let s : gmap string Entry :=
    {[ "contact:a" := {| attempts := [1]; firstAttempt := 1 |};
       "contact:b" := {| attempts := [0; 0]; firstAttempt := 0 |} ]} in
  cleanup 3600000 s = {[ "contact:a" := {| attempts := [1]; firstAttempt := 1 |} ]}.
Proof. vm_compute. reflexivity. Qed.

(** ** Reachable stores respect the quota *)

Lemma attemptsOf_lookup (k : string) (s : gmap string Entry) (d : Entry) :
  s !! k = Some d -> attemptsOf k s = attempts d.
Proof. unfold attemptsOf. now intros ->. Qed.

Lemma validAttempts_length (now : Z) (l : list Z) :
  (length (validAttempts now l) <= length l)%nat.
Proof. apply filter_length_le. Qed.

Lemma bounded_empty : bounded ∅.
Proof. apply map_Forall_empty. Qed.

Lemma bounded_check (now : Z) (ip : string) (s : gmap string Entry) :
  bounded s -> bounded (snd (checkRateLimit now ip s)).
Proof.
  intros Hs k d' Hk. cbn beta.
  destruct (decide (k = storeKey ip)) as [->|Hne].
  - rewrite <- (attemptsOf_lookup _ _ _ Hk), check_attempts.
    pose proof (validAttempts_length now (attemptsOf (storeKey ip) s)) as Hle.
    destruct (Z.ltb_spec
                (Z.of_nat (length (validAttempts now (attemptsOf (storeKey ip) s))))
                (maxRequests RATE_LIMIT_CONFIG)) as [Hlt|Hge].
    + rewrite length_app. cbn [length]. lia.
    + unfold attemptsOf in *. destruct (s !! storeKey ip) as [d|] eqn:E.
      * specialize (Hs _ _ E). cbn beta in Hs. lia.
      * cbn. cbn in Hge. lia.
  - rewrite check_other in Hk by exact Hne. exact (Hs _ _ Hk).
Qed.

Lemma bounded_cleanup (now : Z) (s : gmap string Entry) :
  bounded s -> bounded (cleanup now s).
Proof.
  intros Hs k d Hk. rewrite cleanup_lookup in Hk.
  destruct (s !! k) as [d0|] eqn:E; [|discriminate].
  destruct (validAttempts now (attempts d0)); [discriminate|].
  injection Hk as <-. exact (Hs _ _ E).
Qed.

Lemma bounded_reset (ip : string) (s : gmap string Entry) :
  bounded s -> bounded (resetRateLimit ip s).
Proof. intros Hs. unfold resetRateLimit. now apply map_Forall_delete. Qed.

Lemma reachable_bounded (s : gmap string Entry) : reachable s -> bounded s.
Proof.
  induction 1;
    auto using bounded_empty, bounded_check, bounded_cleanup, bounded_reset.
Qed.

Lemma reachable_seq (ip : string) (clock : list Z) :
  forall s, reachable s -> reachable (snd (checkRateLimitSeq ip clock s)).
Proof.
  induction clock as [|now clock IH]; intros s Hs; cbn [checkRateLimitSeq].
  - exact Hs.
  - pose proof (reach_check now ip s Hs) as H1.
    destruct (checkRateLimit now ip s) as [r s1]. cbn [snd] in H1.
    specialize (IH s1 H1).
    destruct (checkRateLimitSeq ip clock s1) as [rs s2]. exact IH.
Qed.

Lemma bounded_attemptsOf (s : gmap string Entry) (k : string) :
  bounded s -> Z.of_nat (length (attemptsOf k s)) <= maxRequests RATE_LIMIT_CONFIG.
Proof.
  intros Hs. unfold attemptsOf. destruct (s !! k) as [d|] eqn:E.
  - exact (Hs _ _ E).
  - cbn. lia.
Qed.

(** ** The window slides *)

Lemma filter_all_length {A} (f : A -> bool) (l : list A) :
  length (List.filter f l) = length l -> List.filter f l = l.
Proof.
  induction l as [|a l IH]; cbn; [reflexivity|].
  pose proof (filter_length_le f l) as Hle.
  destruct (f a); cbn; intros H.
  - f_equal. apply IH. lia.
  - lia.
Qed.

Lemma exhausted_all_live (now : Z) (l : list Z) :
  Z.of_nat (length l) <= maxRequests RATE_LIMIT_CONFIG ->
  (Z.of_nat (length (validAttempts now l)) <? maxRequests RATE_LIMIT_CONFIG) = false ->
  validAttempts now l = l /\ Z.of_nat (length l) = maxRequests RATE_LIMIT_CONFIG.
Proof.
  intros Hle Hfull. apply Z.ltb_ge in Hfull.
  pose proof (validAttempts_length now l) as Hlen.
  split; [|lia]. apply filter_all_length. unfold validAttempts in *. lia.
Qed.

Lemma slides_core (now later first : Z) (l : list Z) :
  Z.of_nat (length l) <= maxRequests RATE_LIMIT_CONFIG ->
  (Z.of_nat (length (validAttempts now l)) <? maxRequests RATE_LIMIT_CONFIG) = false ->
  head (validAttempts now l) = Some first ->
  first + windowMs RATE_LIMIT_CONFIG <= later ->
  (Z.of_nat (length (validAttempts later l)) <? maxRequests RATE_LIMIT_CONFIG) = true.
Proof.
  intros Hle Hfull Hhead Hlater.
  destruct (exhausted_all_live now l Hle Hfull) as [Hall Hlen].
  rewrite Hall in Hhead. destruct l as [|t rest]; [discriminate|].
  injection Hhead as ->. cbn [validAttempts List.filter]. unfold inWindow at 1.
  destruct (Z.ltb_spec (later - first) (windowMs RATE_LIMIT_CONFIG)) as [Hlt|_];
    [lia|].
  pose proof (validAttempts_length later rest) as Hrest.
  unfold validAttempts in Hrest. cbn [length] in Hlen. apply Z.ltb_lt. lia.
Qed.

(** C3. In a reachable store, let the quota of a key be exhausted at clock
    reading [now] (a call at [now] is denied) and let [first] be its oldest
    live attempt. At every reading [later] from [first + windowMs] on, the
    next call for the key is admitted again, whether or not the denied call
    at [now] was made in between: the oldest attempt has left the window,
    whatever the clock boundaries. *)
Theorem window_slides (now later first : Z) (ip : string) (s : gmap string Entry) :
  reachable s ->
  allowed (fst (checkRateLimit now ip s)) = false ->
  head (validAttempts now (attemptsOf (storeKey ip) s)) = Some first ->
  first + windowMs RATE_LIMIT_CONFIG <= later ->
  allowed (fst (checkRateLimit later ip s)) = true
  /\ allowed (fst (checkRateLimit later ip (snd (checkRateLimit now ip s)))) = true.
Proof.
  intros Hreach Hdenied Hfirst Hlater.
  pose proof (bounded_attemptsOf s (storeKey ip) (reachable_bounded s Hreach)) as Hle.
  rewrite check_allowed in Hdenied.
  assert (Hgo := slides_core now later first _ Hle Hdenied Hfirst Hlater).
  split; rewrite check_allowed.
  - exact Hgo.
  - rewrite check_attempts, Hdenied.
    destruct (exhausted_all_live now _ Hle Hdenied) as [-> _]. exact Hgo.
Qed.

Lemma window_slides_witness :
  let ip := "1.2.3.4" in
  let s := snd (checkRateLimitSeq ip [10; 20; 30; 40; 50] ∅) in
  allowed (fst (checkRateLimit 3600009 ip s)) = false
  /\ allowed (fst (checkRateLimit 3600010 ip s)) = true
  /\ allowed (fst (checkRateLimit 3600010 ip (snd (checkRateLimit 3600009 ip s)))) = true
  /\ remaining (fst (checkRateLimit 3600010 ip s)) = 0.
Proof.
  intros ip s.
  assert (Hreach : reachable s) by (apply reachable_seq, reach_empty).
  assert (Hdenied : allowed (fst (checkRateLimit 3600009 ip s)) = false)
    by reflexivity.
  split; [exact Hdenied|]. split; [|split].
  - apply (window_slides 3600009 3600010 10 ip s Hreach Hdenied); [reflexivity|].
    cbn. lia.
  - apply (window_slides 3600009 3600010 10 ip s Hreach Hdenied); [reflexivity|].
    cbn. lia.
  - reflexivity.
Defined.

(** ** A denied call *)

(** The result of a call is a function of the clock reading and of the live
    attempts. *)
Lemma check_result (now : Z) (ip : string) (s : gmap string Entry) :
  let live := validAttempts now (attemptsOf (storeKey ip) s) in
  let count := Z.of_nat (length live) in
  let ok := count <? maxRequests RATE_LIMIT_CONFIG in
  let reset := orElse (head live) now + windowMs RATE_LIMIT_CONFIG in
  fst (checkRateLimit now ip s)
  = {| allowed := ok;
       remaining :=
         if ok then Z.max 0 (maxRequests RATE_LIMIT_CONFIG - count) - 1 else 0;
       resetTime := reset;
       retryAfter := if ok then 0 else ceilDiv (reset - now) 1000 |}.
Proof.
  unfold checkRateLimit, attemptsOf.
  destruct (s !! storeKey ip); reflexivity.
Qed.

Lemma validAttempts_later (now later : Z) (l : list Z) :
  now <= later ->
  validAttempts later (validAttempts now l) = validAttempts later l.
Proof.
  intros Hle. unfold validAttempts. induction l as [|t l IH]; [reflexivity|].
  cbn [List.filter].
  destruct (inWindow now t) eqn:E1; destruct (inWindow later t) eqn:E2;
    cbn [List.filter]; rewrite ?E2, ?IH; try reflexivity.
  unfold inWindow in E1, E2. apply Z.ltb_ge in E1. apply Z.ltb_lt in E2. lia.
Qed.

(** C9. A call that is denied appends no timestamp: what the key holds
    afterwards is exactly its live attempts, so its live attempts at that
    clock reading are the same as before, the other keys are untouched, and
    any call made at the same or a later reading returns what it would have
    returned had the denied call never been made ([resetTime] and
    [retryAfter] included): retrying while blocked does not extend the
    block. *)
Theorem denied_call_changes_nothing (now : Z) (ip : string) (s : gmap string Entry) :
  let key := storeKey ip in
  let s' := snd (checkRateLimit now ip s) in
  allowed (fst (checkRateLimit now ip s)) = false ->
  attemptsOf key s' = validAttempts now (attemptsOf key s)
  /\ validAttempts now (attemptsOf key s') = validAttempts now (attemptsOf key s)
  /\ (forall k, k <> key -> s' !! k = s !! k)
  /\ (forall later, now <= later ->
        fst (checkRateLimit later ip s') = fst (checkRateLimit later ip s)).
Proof.
  intros key s' Hdenied. rewrite check_allowed in Hdenied. fold key in Hdenied.
  assert (Hs : attemptsOf key s' = validAttempts now (attemptsOf key s)).
  { subst s' key. now rewrite check_attempts, Hdenied. }
  split; [exact Hs|]. split; [|split].
  - rewrite Hs. apply validAttempts_later. lia.
  - intros k Hk. now apply check_other.
  - intros later Hlater. rewrite !check_result. fold key. rewrite Hs.
    now rewrite (validAttempts_later now later _ Hlater).
Qed.

Lemma denied_call_changes_nothing_witness :
  let ip := "1.2.3.4" in
  let s := snd (checkRateLimitSeq ip [10; 20; 30; 40; 50] ∅) in
  let s' := snd (checkRateLimit 60 ip s) in
  allowed (fst (checkRateLimit 60 ip s)) = false
  /\ attemptsOf (storeKey ip) s' = [10; 20; 30; 40; 50]
  /\ resetTime (fst (checkRateLimit 70 ip s')) = 3600010
  /\ fst (checkRateLimit 70 ip s') = fst (checkRateLimit 70 ip s).
Proof.
  intros ip s s'.
  assert (Hdenied : allowed (fst (checkRateLimit 60 ip s)) = false) by reflexivity.
  destruct (denied_call_changes_nothing 60 ip s Hdenied) as (H1 & _ & _ & H4).
  split; [exact Hdenied|]. split; [exact H1|]. split; [reflexivity|].
  apply H4. lia.
Defined.

(** ** The submission handler *)

Lemma keeps_ret {A} (a : A) : keepsStore (ret a).
Proof. intros w. reflexivity. Qed.

Lemma keeps_lift {A} (r : Thrown + A) : keepsStore (lift r).
Proof. intros w. reflexivity. Qed.

Lemma keeps_bind {A B} (m : Try A) (k : A -> Try B) :
  keepsStore m -> (forall a, keepsStore (k a)) -> keepsStore (bind m k).
Proof.
  intros Hm Hk w. unfold bind. specialize (Hm w).
  destruct (m w) as [[e|a] w1]; cbn [snd] in *; [exact Hm|].
  now rewrite Hk.
Qed.

Lemma keeps_send (send : SendCall -> option Thrown) (call : SendCall) :
  keepsStore (emailjs_send send call).
Proof. intros w. unfold emailjs_send. destruct (send call); reflexivity. Qed.

Lemma keeps_if {A} (c : bool) (a b : Try A) :
  keepsStore a -> keepsStore b -> keepsStore (if c then a else b).
Proof. now destruct c. Qed.

Ltac keeps :=
  repeat match goal with
    | |- keepsStore (ret _) => apply keeps_ret
    | |- keepsStore (lift _) => apply keeps_lift
    | |- keepsStore (emailjs_send _ _) => apply keeps_send
    | |- keepsStore (bind _ _) => apply keeps_bind; [|intros ?]
    | |- keepsStore (if _ then _ else _) => apply keeps_if
    end.

Lemma keeps_missing (body : JsValue) (name : string) : keepsStore (missing body name).
Proof. unfold missing. keeps. Qed.

Lemma keeps_dispatch env send ip r body : keepsStore (dispatch env send ip r body).
Proof. unfold dispatch, emailSent. cbv zeta. keeps. Qed.

(** After the call to the limiter, nothing in [POST] writes to the map. *)
Lemma POST_store now env send request w :
  rateLimitStore (snd (POST now env send request w))
  = snd (checkRateLimit now (clientIp request) (rateLimitStore w)).
Proof.
  unfold POST.
  assert (H : rateLimitStore (snd (tryPOST now env send request w))
              = snd (checkRateLimit now (clientIp request) (rateLimitStore w))).
  { unfold tryPOST, bind at 1, callCheckRateLimit.
    destruct (checkRateLimit now (clientIp request) (rateLimitStore w)) as [r s1].
    cbn [snd].
    match goal with
    | |- rateLimitStore (snd (?m ?w1)) = _ =>
        assert (Hk : keepsStore m); [|exact (Hk w1)]
    end.
    unfold tooManyRequests, orElseTry. cbv zeta.
    keeps; try apply keeps_missing; apply keeps_dispatch. }
  destruct (tryPOST now env send request w) as [[e|response] w']; exact H.
Qed.

Lemma now_is_live (now : Z) (l : list Z) :
  validAttempts now (validAttempts now l ++ [now]) = validAttempts now l ++ [now].
Proof.
  apply validAttempts_all. intros t Ht. apply in_app_or in Ht as [Ht|[<-|[]]].
  - now apply validAttempts_elem in Ht.
  - cbn. lia.
Qed.

(** C8. When the limiter admits a [POST], the map the handler leaves behind
    is the one the limiter produced, whatever the response: the clock
    reading stays recorded after the live attempts of the key and counts as
    one more live attempt, also when the request ends in 403, 400 or 500. *)
Theorem rejected_submission_consumes_quota now env send request w :
  let ip := clientIp request in
  let key := storeKey ip in
  let before := validAttempts now (attemptsOf key (rateLimitStore w)) in
  let after := rateLimitStore (snd (POST now env send request w)) in
  allowed (fst (checkRateLimit now ip (rateLimitStore w))) = true ->
  after = snd (checkRateLimit now ip (rateLimitStore w))
  /\ attemptsOf key after = before ++ [now]
  /\ length (validAttempts now (attemptsOf key after)) = S (length before).
Proof.
  intros ip key before after Hallowed.
  assert (Hafter : after = snd (checkRateLimit now ip (rateLimitStore w)))
    by apply POST_store.
  assert (Hrec : attemptsOf key after = before ++ [now]).
  { rewrite Hafter. subst key. rewrite check_attempts.
    rewrite check_allowed in Hallowed. now rewrite Hallowed. }
  repeat split; [exact Hafter | exact Hrec |].
  rewrite Hrec. subst before. rewrite now_is_live, length_app. cbn. lia.
Qed.



(** *** Stage by stage *)

Lemma answers_ret (P : Response -> Prop) (response : Response) :
  P response -> answers P (ret response).
Proof. intros H w. exact H. Qed.

Lemma answers_bind {A} (P : Response -> Prop) (m : Try A) (k : A -> Try Response) :
  (forall a, answers P (k a)) -> answers P (bind m k).
Proof.
  intros Hk w. unfold bind. destruct (m w) as [[e|a] w1]; [exact I|apply Hk].
Qed.

Lemma answers_if (P : Response -> Prop) (c : bool) (a b : Try Response) :
  answers P a -> answers P b -> answers P (if c then a else b).
Proof. now destruct c. Qed.

Ltac answers :=
  repeat match goal with
    | |- answers _ (ret _) => apply answers_ret; cbn; auto
    | |- answers _ (bind _ _) => apply answers_bind; intros ?
    | |- answers _ (if _ then _ else _) => apply answers_if
    end.

(** Past the validation, a response is a 500 or a 200. *)
Lemma dispatch_answers env send ip r body :
  answers (fun response => status response = 500 \/ status response = 200)
    (dispatch env send ip r body).
Proof. unfold dispatch, emailSent. cbv zeta. answers. Qed.

(** [POST] runs the rest of the [try] block in the world the limiter left. *)
Lemma tryPOST_unfold now env send request w :
  tryPOST now env send request w
  = (let ip := clientIp request in
     let rateLimitResult := fst (checkRateLimit now ip (rateLimitStore w)) in
     if negb (allowed rateLimitResult) then tooManyRequests rateLimitResult
     else if csrfInvalid (csrfCookie request) (xCsrfToken request)
          then ret invalidCsrf
          else
            let* body := lift (json request) in
            let* invalid :=
              orElseTry (missing body "name")
                (orElseTry (missing body "email")
                   (orElseTry (missing body "message") (missing body "rgpd"))) in
            if invalid then ret missingFields
            else dispatch env send ip rateLimitResult body)
      (afterCheck now request w).
Proof.
  unfold tryPOST, bind at 1, callCheckRateLimit, afterCheck.
  destruct (checkRateLimit now (clientIp request) (rateLimitStore w)) as [r s1].
  reflexivity.
Qed.

Lemma getProp_field (body : JsValue) (name : string) :
  nullish body = false -> getProp body name = inr (field body name).
Proof. unfold field. destruct body; cbn; intros H; reflexivity || discriminate. Qed.

Lemma validation_eval (body : JsValue) (w : World) :
  nullish body = false ->
  orElseTry (missing body "name")
    (orElseTry (missing body "email")
       (orElseTry (missing body "message") (missing body "rgpd"))) w
  = (inr (negb (allPresent body)), w).
Proof.
  intros Hbody. unfold orElseTry, missing, bind, lift, ret, allPresent.
  rewrite !(getProp_field body _ Hbody).
  destruct (truthy (field body "name")); [|reflexivity].
  destruct (truthy (field body "email")); [|reflexivity].
  destruct (truthy (field body "message")); [|reflexivity].
  destruct (truthy (field body "rgpd")); reflexivity.
Qed.

Lemma validation_throws (body : JsValue) (w : World) :
  nullish body = true ->
  exists error,
    orElseTry (missing body "name")
      (orElseTry (missing body "email")
         (orElseTry (missing body "message") (missing body "rgpd"))) w
    = (inl error, w).
Proof.
  intros Hbody. destruct body; try discriminate; eexists; reflexivity.
Qed.

Section Stages.

Variables (now : Z) (env : Env) (send : SendCall -> option Thrown)
          (request : Request) (w : World).

Let ip := clientIp request.
Let rateLimitResult := fst (checkRateLimit now ip (rateLimitStore w)).

Hypothesis admitted : allowed rateLimitResult = true.

Lemma POST_csrf_rejected :
  csrfInvalid (csrfCookie request) (xCsrfToken request) = true ->
  POST now env send request w = (invalidCsrf, afterCheck now request w).
Proof.
  intros Hcsrf. unfold POST. rewrite tryPOST_unfold. cbn zeta.
  fold ip. fold rateLimitResult. rewrite admitted, Hcsrf. reflexivity.
Qed.

Hypothesis csrfPassed : csrfInvalid (csrfCookie request) (xCsrfToken request) = false.

Lemma POST_json_rejects (error : Thrown) :
  json request = inl error ->
  POST now env send request w = (failedToSend error, afterCheck now request w).
Proof.
  intros Hjson. unfold POST. rewrite tryPOST_unfold. cbn zeta.
  fold ip. fold rateLimitResult. rewrite admitted, csrfPassed, Hjson. reflexivity.
Qed.

Lemma POST_nullish (body : JsValue) :
  json request = inr body -> nullish body = true ->
  exists error,
    POST now env send request w = (failedToSend error, afterCheck now request w).
Proof.
  intros Hjson Hbody. unfold POST. rewrite tryPOST_unfold. cbn zeta.
  fold ip. fold rateLimitResult. rewrite admitted, csrfPassed, Hjson.
  cbn [negb]. unfold bind at 1, lift at 1. unfold bind at 1.
  destruct (validation_throws body (afterCheck now request w) Hbody) as [error ->].
  exists error. reflexivity.
Qed.

Lemma POST_missing (body : JsValue) :
  json request = inr body -> nullish body = false -> allPresent body = false ->
  POST now env send request w = (missingFields, afterCheck now request w).
Proof.
  intros Hjson Hbody Hmissing. unfold POST. rewrite tryPOST_unfold. cbn zeta.
  fold ip. fold rateLimitResult. rewrite admitted, csrfPassed, Hjson.
  cbn [negb]. unfold bind at 1, lift at 1. unfold bind at 1.
  rewrite (validation_eval body _ Hbody), Hmissing. reflexivity.
Qed.

Lemma POST_dispatches (body : JsValue) :
  json request = inr body -> nullish body = false -> allPresent body = true ->
  POST now env send request w
  = match dispatch env send ip rateLimitResult body (afterCheck now request w) with
    | (inr response, w') => (response, w')
    | (inl error, w') => (failedToSend error, w')
    end.
Proof.
  intros Hjson Hbody Hpresent. unfold POST. rewrite tryPOST_unfold. cbn zeta.
  fold ip. fold rateLimitResult. rewrite admitted, csrfPassed, Hjson.
  cbn [negb]. unfold bind at 1, lift at 1. unfold bind at 1.
  rewrite (validation_eval body _ Hbody), Hpresent. reflexivity.
Qed.

End Stages.

Example clientIp_first_forwarded :
  clientIp (submission None None (inr JNull)) = "1.2.3.4".
Proof. reflexivity. Qed.

Example trim_forwarded : trim (firstField "  203.0.113.7 , 10.0.0.1") = "203.0.113.7".
Proof. reflexivity. Qed.

Example clientIp_fallbacks :
  clientIp {| xForwardedFor := Some " ,10.0.0.1"; xRealIp := Some "198.51.100.2";
              xCsrfToken := None; csrfCookie := None; json := inr JNull |}
  = "198.51.100.2"
  /\ clientIp {| xForwardedFor := None; xRealIp := Some "";
                 xCsrfToken := None; csrfCookie := None; json := inr JNull |}
     = "unknown".
Proof. split; reflexivity. Qed.

Example truthy_numbers :
  truthy (JNumber 0.5%float) = true
  /\ truthy (JNumber (-0)%float) = false
  /\ truthy (JNumber nan) = false.
Proof. repeat split; reflexivity. Qed.

Example scenario_A :
  let result := POST 1000 env0 sendOk
                  (submission (Some "abc") (Some "abc") (inr (payload (JBool true))))
                  world0 in
  status (fst result) = 200
  /\ headers (fst result)
     = [("X-RateLimit-Limit", HText "5"); ("X-RateLimit-Remaining", HNumber 4);
        ("X-RateLimit-Reset", HIsoDate 3601000)]
  /\ length (sent (snd result)) = 1%nat.
Proof. vm_compute. repeat split. Qed.

Example scenario_B :
  let request := submission (Some "abc") (Some "abc") (inr (payload (JBool true))) in
  let w5 :=
    {| rateLimitStore :=
         snd (checkRateLimitSeq "1.2.3.4" [1000; 2000; 3000; 4000; 5000] ∅);
       sent := [] |} in
  let result := POST 6000 env0 sendOk request w5 in
  status (fst result) = 429
  /\ body (fst result)
     = ErrorBody "Trop de tentatives. Veuillez patienter avant de réessayer."
         None (Some 3595)
  /\ headers (fst result)
     = [("Retry-After", HNumber 3595); ("X-RateLimit-Limit", HText "5");
        ("X-RateLimit-Remaining", HText "0");
        ("X-RateLimit-Reset", HIsoDate 3601000)]
  /\ sent (snd result) = [].
Proof. vm_compute. repeat split. Qed.

(** *** CSRF *)

Lemma csrfInvalid_true (cookie header : option string) :
  cookie = None \/ cookie = Some "" \/ header = None \/ cookie <> header ->
  csrfInvalid cookie header = true.
Proof.
  unfold csrfInvalid, truthyStr.
  destruct cookie as [c|], header as [h|]; cbn;
    try (intros _; apply orb_true_r); try reflexivity.
  intros [H|[H|[H|H]]]; try discriminate.
  - injection H as ->. reflexivity.
  - destruct (String.eqb_spec c h) as [->|_]; [congruence|apply orb_true_r].
Qed.

Lemma csrfInvalid_false (token : string) :
  token <> "" -> csrfInvalid (Some token) (Some token) = false.
Proof.
  intros H. unfold csrfInvalid, truthyStr. rewrite String.eqb_refl.
  destruct (String.eqb_spec token ""); [contradiction|reflexivity].
Qed.

(** Past the CSRF check the status is 500, 400 or 200. *)
Lemma POST_past_csrf now env send request w :
  allowed (fst (checkRateLimit now (clientIp request) (rateLimitStore w))) = true ->
  csrfInvalid (csrfCookie request) (xCsrfToken request) = false ->
  let code := status (fst (POST now env send request w)) in
  code = 500 \/ code = 400 \/ code = 200.
Proof.
  intros Ha Hc. cbv zeta.
  destruct (json request) as [error|body] eqn:Hjson.
  - rewrite (POST_json_rejects now env send request w Ha Hc error Hjson). now left.
  - destruct (nullish body) eqn:Hnull.
    + destruct (POST_nullish now env send request w Ha Hc body Hjson Hnull)
        as [error ->]. now left.
    + destruct (allPresent body) eqn:Hall.
      * rewrite (POST_dispatches now env send request w Ha Hc body Hjson Hnull Hall).
        pose proof (dispatch_answers env send (clientIp request)
                      (fst (checkRateLimit now (clientIp request) (rateLimitStore w)))
                      body (afterCheck now request w)) as Hd.
        destruct (dispatch _ _ _ _ _ _) as [[error|response] w']; cbn in *.
        -- now left.
        -- destruct Hd; auto.
      * rewrite (POST_missing now env send request w Ha Hc body Hjson Hnull Hall).
        right. now left.
Qed.

(** C4 (amended). For a [POST] that the limiter admits: when the
    [csrf-token] cookie is absent or empty, the [X-CSRF-Token] header is
    absent, or the two differ, the handler answers 403 'Invalid CSRF token'
    and does nothing else; when both carry the same non-empty token, the
    answer is not 403, whatever the payload. *)
Theorem csrf_stage now env send request w :
  allowed (fst (checkRateLimit now (clientIp request) (rateLimitStore w))) = true ->
  (csrfCookie request = None \/ csrfCookie request = Some ""
   \/ xCsrfToken request = None \/ csrfCookie request <> xCsrfToken request ->
   POST now env send request w = (invalidCsrf, afterCheck now request w))
  /\ (forall token,
        token <> "" ->
        csrfCookie request = Some token -> xCsrfToken request = Some token ->
        status (fst (POST now env send request w)) <> 403).
Proof.
  intros Ha. split.
  - intros Hbad. apply POST_csrf_rejected; [exact Ha|]. now apply csrfInvalid_true.
  - intros token Htoken Hcookie Hheader.
    assert (Hc : csrfInvalid (csrfCookie request) (xCsrfToken request) = false)
      by (rewrite Hcookie, Hheader; now apply csrfInvalid_false).
    pose proof (POST_past_csrf now env send request w Ha Hc) as H. cbv zeta in H.
    lia.
Qed.

Lemma csrf_stage_witness :
  let mismatch := submission (Some "abc") (Some "xyz") (inr (payload (JBool true))) in
  let matching := submission (Some "abc") (Some "abc") (inr JNull) in
  POST 1000 env0 sendOk mismatch world0 = (invalidCsrf, afterCheck 1000 mismatch world0)
  /\ status (fst (POST 1000 env0 sendOk matching world0)) <> 403.
Proof.
  intros mismatch matching. split.
  - apply (csrf_stage 1000 env0 sendOk mismatch world0); [reflexivity|].
    right. right. right. cbn. congruence.
  - apply (csrf_stage 1000 env0 sendOk matching world0) with (token := "abc");
      [reflexivity | congruence | reflexivity | reflexivity].
Defined.

(** C4 as stated fails on a cookie and a header that are both present and
    equal but empty: the request is admitted by the limiter and answered 403. *)
Lemma csrf_empty_tokens_rejected :
  let request := submission (Some "") (Some "") (inr (payload (JBool true))) in
  csrfCookie request = Some ""
  /\ xCsrfToken request = Some ""
  /\ allowed (fst (checkRateLimit 1000 (clientIp request) (rateLimitStore world0)))
     = true
  /\ status (fst (POST 1000 env0 sendOk request world0)) = 403.
Proof. vm_compute. repeat split. Qed.

(** *** Payload validation *)

(** C5 (amended). For a [POST] that passes the limiter and the CSRF check:
    when the body parses to a value other than [null], the handler answers
    400 'Missing required fields', and does nothing else, if one of [name],
    [email], [message], [rgpd] is missing or falsy, and does not answer 400 if
    all four are truthy, whether or not [rgpd] is the boolean [true]; a body
    that does not parse, or is [null], is answered through the [catch] clause
    with 500. *)
Theorem payload_stage now env send request w :
  allowed (fst (checkRateLimit now (clientIp request) (rateLimitStore w))) = true ->
  csrfInvalid (csrfCookie request) (xCsrfToken request) = false ->
  match json request with
  | inl error =>
      POST now env send request w = (failedToSend error, afterCheck now request w)
  | inr body =>
      if nullish body
      then status (fst (POST now env send request w)) = 500
      else if allPresent body
           then status (fst (POST now env send request w)) <> 400
           else POST now env send request w
                = (missingFields, afterCheck now request w)
  end.
Proof.
  intros Ha Hc. destruct (json request) as [error|body] eqn:Hjson.
  - now apply POST_json_rejects.
  - destruct (nullish body) eqn:Hnull.
    + destruct (POST_nullish now env send request w Ha Hc body Hjson Hnull)
        as [error ->]. reflexivity.
    + destruct (allPresent body) eqn:Hall.
      * rewrite (POST_dispatches now env send request w Ha Hc body Hjson Hnull Hall).
        pose proof (dispatch_answers env send (clientIp request)
                      (fst (checkRateLimit now (clientIp request) (rateLimitStore w)))
                      body (afterCheck now request w)) as Hd.
        destruct (dispatch _ _ _ _ _ _) as [[error|response] w']; cbn in *.
        -- discriminate.
        -- lia.
      * now apply (POST_missing now env send request w Ha Hc body).
Qed.

Lemma payload_stage_witness :
  let noConsent :=
    submission (Some "abc") (Some "abc")
      (inr (JObject [("name", JString "Ada"); ("email", JString "ada@example.org");
                     ("message", JString "Bonjour")])) in
  POST 1000 env0 sendOk noConsent world0
  = (missingFields, afterCheck 1000 noConsent world0).
Proof.
  intros noConsent.
  exact (payload_stage 1000 env0 sendOk noConsent world0 eq_refl eq_refl).
Defined.

(** C5 as stated fails on a consent flag that is truthy without being the
    boolean [true]: with [rgpd: "yes"] the request passes the limiter and the
    CSRF check, is not answered 400, and the mail is dispatched. *)
Lemma consent_truthy_not_true_accepted :
  let body := payload (JString "yes") in
  let request := submission (Some "abc") (Some "abc") (inr body) in
  let result := POST 1000 env0 sendOk request world0 in
  allowed (fst (checkRateLimit 1000 (clientIp request) (rateLimitStore world0)))
  = true
  /\ csrfInvalid (csrfCookie request) (xCsrfToken request) = false
  /\ field body "rgpd" = JString "yes"
  /\ status (fst result) = 200
  /\ length (sent (snd result)) = 1%nat.
Proof. vm_compute. repeat split. Qed.

(** *** The configuration guard *)

Lemma guard_configured (env : Env) :
  negb (truthyStr (EMAILJS_SERVICE_ID env)) || negb (truthyStr (EMAILJS_TEMPLATE_ID env))
  || negb (truthyStr (EMAILJS_PUBLIC_KEY env))
  = negb (configured env).
Proof.
  unfold configured.
  destruct (truthyStr (EMAILJS_SERVICE_ID env)),
           (truthyStr (EMAILJS_TEMPLATE_ID env)),
           (truthyStr (EMAILJS_PUBLIC_KEY env)); reflexivity.
Qed.

Lemma dispatch_not_configured env send ip r body w :
  configured env = false -> dispatch env send ip r body w = (inr notConfigured, w).
Proof.
  intros H. unfold dispatch. cbv zeta. rewrite guard_configured, H. reflexivity.
Qed.

(** With the three credentials and a body that is not [null], [dispatch] is
    the primary call, the optional autoresponse and the success response. *)
Lemma dispatch_eq env send ip r body w :
  configured env = true -> nullish body = false ->
  dispatch env send ip r body w
  = (let* _ := emailjs_send send (primaryCall env ip body) in
     let* _ :=
       if truthyStr (EMAILJS_AUTORESPONSE_TEMPLATE_ID env)
          && differs (EMAILJS_AUTORESPONSE_TEMPLATE_ID env)
               "your_autoresponse_template_id_here"
       then emailjs_send send
              {| sendService := EMAILJS_SERVICE_ID env;
                 sendTemplate := EMAILJS_AUTORESPONSE_TEMPLATE_ID env;
                 sendParams :=
                   [("to_name", field body "name");
                    ("to_email", field body "email");
                    ("request_type",
                     JString (requestTypeLabel (field body "requestType")))];
                 sendPublicKey := EMAILJS_PUBLIC_KEY env;
                 sendPrivateKey := EMAILJS_PRIVATE_KEY env |}
       else ret tt in
     emailSent r) w.
Proof.
  intros Hconf Hbody. unfold dispatch. cbv zeta.
  rewrite guard_configured, Hconf. cbn [negb].
  rewrite !(getProp_field body _ Hbody). reflexivity.
Qed.

Lemma bind_send {B} send call (k : unit -> Try B) w :
  bind (emailjs_send send call) k w
  = let w1 := {| rateLimitStore := rateLimitStore w; sent := sent w ++ [call] |} in
    match send call with
    | Some error => (inl error, w1)
    | None => k tt w1
    end.
Proof. unfold bind, emailjs_send. destruct (send call); reflexivity. Qed.

Lemma emailSent_result r w :
  snd (emailSent r w) = w
  /\ match fst (emailSent r w) with
     | inr response => status response = 200
     | inl _ => True
     end.
Proof.
  unfold emailSent, bind, lift, ret. destruct (toISOString (resetTime r)); cbn; auto.
Qed.

(** The first thing a configured [dispatch] does is the primary call; a
    rejection of that call ends the [try] block. *)
Lemma dispatch_configured env send ip r body w :
  configured env = true -> nullish body = false ->
  let call := primaryCall env ip body in
  let w1 := {| rateLimitStore := rateLimitStore w; sent := sent w ++ [call] |} in
  match send call with
  | Some error => dispatch env send ip r body w = (inl error, w1)
  | None =>
      exists rest,
        sent (snd (dispatch env send ip r body w)) = sent w ++ call :: rest
        /\ match fst (dispatch env send ip r body w) with
           | inr response => status response = 200
           | inl _ => True
           end
  end.
Proof.
  intros Hconf Hbody call w1. rewrite (dispatch_eq env send ip r body w Hconf Hbody).
  fold call. rewrite bind_send. cbv zeta. fold w1.
  destruct (send call) as [error|]; [reflexivity|].
  destruct (truthyStr (EMAILJS_AUTORESPONSE_TEMPLATE_ID env)
            && differs (EMAILJS_AUTORESPONSE_TEMPLATE_ID env)
                 "your_autoresponse_template_id_here").
  - match goal with |- context [emailjs_send send ?c] => set (second := c) end.
    exists [second]. rewrite bind_send. cbv zeta.
    destruct (send second); cbn [fst snd sent].
    + subst w1. cbn [sent]. rewrite <- app_assoc. split; [reflexivity|exact I].
    + subst w1. cbn [sent rateLimitStore].
      match goal with
      | |- context [emailSent r ?x] =>
          destruct (emailSent_result r x) as [-> Hstatus]
      end.
      cbn [sent]. split; [now rewrite <- app_assoc|exact Hstatus].
  - exists []. unfold bind at 1, ret at 1.
    destruct (emailSent_result r w1) as [-> Hstatus]. split; [reflexivity|exact Hstatus].
Qed.

(** C10. For a [POST] that reaches the credentials (admitted, valid CSRF
    pair, all mandatory fields truthy): the answer is 500 'Email service not
    configured', with nothing dispatched, exactly when one of
    [EMAILJS_SERVICE_ID], [EMAILJS_TEMPLATE_ID], [EMAILJS_PUBLIC_KEY] is
    missing or empty. Otherwise, whatever [EMAILJS_PRIVATE_KEY] is, missing
    included, the primary call is made with that private key, the answer is
    not the 'not configured' one, and a rejection of the call is answered by
    the [catch] clause with 500 'Failed to send email'. *)
Theorem configuration_guard now env send request w body :
  allowed (fst (checkRateLimit now (clientIp request) (rateLimitStore w))) = true ->
  csrfInvalid (csrfCookie request) (xCsrfToken request) = false ->
  json request = inr body -> nullish body = false -> allPresent body = true ->
  let call := primaryCall env (clientIp request) body in
  let result := POST now env send request w in
  if configured env
  then sendPrivateKey call = EMAILJS_PRIVATE_KEY env
       /\ (exists rest, sent (snd result) = sent w ++ call :: rest)
       /\ fst result <> notConfigured
       /\ (forall error,
             send call = Some error ->
             result
             = (failedToSend error,
                {| rateLimitStore := rateLimitStore (afterCheck now request w);
                   sent := sent w ++ [call] |}))
  else result = (notConfigured, afterCheck now request w).
Proof.
  intros Ha Hc Hjson Hnull Hall call result. subst result.
  rewrite (POST_dispatches now env send request w Ha Hc body Hjson Hnull Hall).
  set (r := fst (checkRateLimit now (clientIp request) (rateLimitStore w))).
  destruct (configured env) eqn:Hconf.
  - pose proof (dispatch_configured env send (clientIp request) r body
                  (afterCheck now request w) Hconf Hnull) as Hd.
    cbv zeta in Hd. fold call in Hd.
    split; [reflexivity|].
    destruct (send call) as [error|] eqn:Hsend.
    + rewrite Hd. cbn [fst snd sent afterCheck].
      split; [exists []; reflexivity|]. split; [discriminate|].
      intros error' [= <-]. reflexivity.
    + destruct Hd as (rest & Hsent & Hstatus).
      destruct (dispatch _ _ _ _ _ _) as [[error|response] w'];
        cbn [fst snd] in *.
      * split; [exists rest; exact Hsent|]. split; discriminate.
      * split; [exists rest; exact Hsent|]. split; [|discriminate].
        intros ->. discriminate.
  - rewrite dispatch_not_configured by exact Hconf. reflexivity.
Qed.

Lemma configuration_guard_witness :
  let body := payload (JBool true) in
  let request := submission (Some "abc") (Some "abc") (inr body) in
  let call := primaryCall env0 (clientIp request) body in
  EMAILJS_PRIVATE_KEY env0 = None
  /\ sendPrivateKey call = None
  /\ POST 1000 env0 sendStrict request world0
     = ({| status := 500;
           body := ErrorBody "Failed to send email" (Some "Private key required") None;
           headers := [] |},
        {| rateLimitStore := rateLimitStore (afterCheck 1000 request world0);
           sent := [call] |}).
Proof.
  intros body request call.
  destruct (configuration_guard 1000 env0 sendStrict request world0 body
              eq_refl eq_refl eq_refl eq_refl eq_refl) as (Hkey & _ & _ & Hfail).
  split; [reflexivity|]. split; [exact Hkey|].
  exact (Hfail _ eq_refl).
Defined.

Lemma rejected_submission_consumes_quota_witness :
  let request := submission (Some "abc") (Some "xyz") (inr (payload (JBool true))) in
  let result := POST 1000 env0 sendOk request world0 in
  status (fst result) = 403
  /\ attemptsOf (storeKey "1.2.3.4") (rateLimitStore (snd result)) = [1000]
  /\ length (validAttempts 1000
               (attemptsOf (storeKey "1.2.3.4") (rateLimitStore (snd result))))
     = 1%nat.
Proof.
  intros request result.
  destruct (rejected_submission_consumes_quota 1000 env0 sendOk request world0 eq_refl)
    as (_ & Hrec & Hlive).
  split; [reflexivity|]. split; [exact Hrec | exact Hlive].
Defined.

(** * Further properties of the limiter *)

(** X1. Whatever the store and the clock, [remaining] lies between [0] and
    [maxRequests - 1], and it is [0] on a denied call. *)
Theorem remaining_bounds (now : Z) (ip : string) (s : gmap string Entry) :
  let r := fst (checkRateLimit now ip s) in
  0 <= remaining r <= maxRequests RATE_LIMIT_CONFIG - 1
  /\ (if allowed r then True else remaining r = 0).
Proof.
  cbv zeta. rewrite check_remaining, check_allowed.
  destruct (Z.ltb_spec
              (Z.of_nat (length (validAttempts now (attemptsOf (storeKey ip) s))))
              (maxRequests RATE_LIMIT_CONFIG)); cbn in *; lia.
Qed.

Lemma head_validAttempts (now t : Z) (l : list Z) :
  head (validAttempts now l) = Some t ->
  In t l /\ now - t < windowMs RATE_LIMIT_CONFIG.
Proof.
  intros H. apply validAttempts_elem.
  destruct (validAttempts now l) as [|u rest]; [discriminate|].
  injection H as ->. now left.
Qed.

Lemma orElse_cases (x : option Z) (d : Z) :
  orElse x d = d \/ x = Some (orElse x d).
Proof.
  destruct x as [v|]; cbn; [|now left].
  destruct (v =? 0); [now left | now right].
Qed.

(** X2. The reset time announced by a call lies strictly after the clock
    reading of the call, at most a window after it when no recorded attempt
    is later than that reading; a denied call therefore announces a wait of
    at least one second, and of at most [windowMs / 1000] seconds under the
    same condition. *)
Theorem reset_in_the_future (now : Z) (ip : string) (s : gmap string Entry) :
  let r := fst (checkRateLimit now ip s) in
  now < resetTime r
  /\ (allowed r = false -> 1 <= retryAfter r)
  /\ (Forall (fun t => t <= now) (attemptsOf (storeKey ip) s) ->
      resetTime r <= now + windowMs RATE_LIMIT_CONFIG
      /\ retryAfter r <= windowMs RATE_LIMIT_CONFIG / 1000).
Proof.
  cbv zeta. rewrite check_resetTime, check_retryAfter, check_allowed.
  set (live := validAttempts now (attemptsOf (storeKey ip) s)).
  assert (Hfuture : now < orElse (head live) now + windowMs RATE_LIMIT_CONFIG).
  { destruct (orElse_cases (head live) now) as [->|Hhead]; [cbn; lia|].
    apply head_validAttempts in Hhead. lia. }
  split; [exact Hfuture|]. split.
  - intros Hdenied. rewrite Hdenied.
    pose proof (ceilDiv_bounds
                  (orElse (head live) now + windowMs RATE_LIMIT_CONFIG - now)). lia.
  - intros Hpast.
    assert (Hreset : orElse (head live) now + windowMs RATE_LIMIT_CONFIG
                     <= now + windowMs RATE_LIMIT_CONFIG).
    { destruct (orElse_cases (head live) now) as [->|Hhead]; [lia|].
      apply head_validAttempts in Hhead as [Hin _].
      rewrite Forall_forall in Hpast. apply list_elem_of_In, Hpast in Hin. lia. }
    split; [exact Hreset|].
    change (windowMs RATE_LIMIT_CONFIG / 1000) with 3600.
    change (windowMs RATE_LIMIT_CONFIG) with 3600000 in *.
    destruct (_ <? _); [lia|].
    pose proof (ceilDiv_bounds (orElse (head live) now + 3600000 - now)). lia.
Qed.

Lemma reset_in_the_future_witness :
  let s := snd (checkRateLimitSeq "1.2.3.4" [10; 20; 30; 40; 50] ∅) in
  let r := fst (checkRateLimit 60 "1.2.3.4" s) in
  allowed r = false /\ 1 <= retryAfter r <= 3600 /\ 60 < resetTime r <= 60 + 3600000.
Proof.
  intros s r.
  destruct (reset_in_the_future 60 "1.2.3.4" s) as (Hfuture & Hwait & Hcap).
  assert (Hdenied : allowed r = false) by reflexivity.
  assert (Hpast : Forall (fun t => t <= 60) (attemptsOf (storeKey "1.2.3.4") s)).
  { change (attemptsOf (storeKey "1.2.3.4") s) with [10; 20; 30; 40; 50].
    repeat constructor; lia. }
  destruct (Hcap Hpast) as [Hreset Hretry].
  split; [exact Hdenied|]. split; [split; [exact (Hwait Hdenied) | exact Hretry]|].
  split; [exact Hfuture | exact Hreset].
Defined.

Lemma storeKey_inj (ip ip' : string) : storeKey ip = storeKey ip' -> ip = ip'.
Proof. unfold storeKey. intros H. now apply (inj (String.app "contact:")). Qed.

Lemma check_attempts_other (now : Z) (ip ip' : string) (s : gmap string Entry) :
  ip <> ip' ->
  attemptsOf (storeKey ip') (snd (checkRateLimit now ip s))
  = attemptsOf (storeKey ip') s.
Proof.
  intros Hne. unfold attemptsOf. rewrite check_other; [reflexivity|].
  intros Heq. apply Hne. symmetry. now apply storeKey_inj.
Qed.

(** What a call leaves under its own key depends on the rest of the map
    only through what was under that key. *)
Lemma check_lookup_ext (now : Z) (ip : string) (s s' : gmap string Entry) :
  s !! storeKey ip = s' !! storeKey ip ->
  fst (checkRateLimit now ip s) = fst (checkRateLimit now ip s')
  /\ snd (checkRateLimit now ip s) !! storeKey ip
     = snd (checkRateLimit now ip s') !! storeKey ip.
Proof.
  intros H. unfold checkRateLimit. cbv zeta. rewrite H.
  destruct (s' !! storeKey ip) as [d|]; cbn [fst snd].
  - split; [reflexivity|]. destruct (_ <? _); now rewrite !lookup_insert_eq.
  - split; [reflexivity|]. cbn [validAttempts List.filter length attempts].
    change (Z.of_nat 0 <? maxRequests RATE_LIMIT_CONFIG) with true. cbn iota.
    now rewrite !lookup_insert_eq.
Qed.

(** X3. Clients are isolated from each other: a call for one address, admitted
    or not, changes neither what is recorded for another address nor the
    answer a call for that other address gets, and two calls for different
    addresses leave the same map in either order. *)
Theorem clients_are_isolated (now later : Z) (ip ip' : string) (s : gmap string Entry) :
  ip <> ip' ->
  let s1 := snd (checkRateLimit now ip s) in
  s1 !! storeKey ip' = s !! storeKey ip'
  /\ fst (checkRateLimit later ip' s1) = fst (checkRateLimit later ip' s)
  /\ snd (checkRateLimit later ip' s1)
     = snd (checkRateLimit now ip (snd (checkRateLimit later ip' s))).
Proof.
  intros Hne s1.
  assert (Hkey : storeKey ip' <> storeKey ip)
    by (intros Heq; apply Hne; symmetry; now apply storeKey_inj).
  assert (Hlook : s1 !! storeKey ip' = s !! storeKey ip')
    by (subst s1; now apply check_other).
  split; [exact Hlook|].
  destruct (check_lookup_ext later ip' s1 s Hlook) as [Hfst Hsnd].
  split; [exact Hfst|].
  apply map_eq. intros k.
  destruct (decide (k = storeKey ip')) as [->|Hk'].
  - rewrite Hsnd. symmetry. now apply check_other.
  - rewrite check_other by exact Hk'.
    destruct (decide (k = storeKey ip)) as [->|Hk].
    + subst s1. apply check_lookup_ext. symmetry. apply check_other. congruence.
    + subst s1. now rewrite !check_other by assumption.
Qed.

Lemma clients_are_isolated_witness :
  let s := snd (checkRateLimitSeq "1.2.3.4" [10; 20; 30; 40; 50] ∅) in
  fst (checkRateLimit 70 "5.6.7.8" (snd (checkRateLimit 60 "1.2.3.4" s)))
  = {| allowed := true; remaining := 4; resetTime := 3600070; retryAfter := 0 |}.
Proof.
  intros s.
  assert (Hne : "1.2.3.4" <> "5.6.7.8") by discriminate.
  destruct (clients_are_isolated 60 70 "1.2.3.4" "5.6.7.8" s Hne) as (_ & H & _).
  rewrite H. reflexivity.
Defined.

(** X4. [resetRateLimit] forgets one client and only that one: the next call
    for the address is answered as a first call, calls for other addresses
    are answered as before, and resetting an address that is not tracked
    changes nothing. *)
Theorem reset_forgets_one_client (now : Z) (ip ip' : string) (s : gmap string Entry) :
  checkRateLimit now ip (resetRateLimit ip s)
  = ({| allowed := true;
        remaining := maxRequests RATE_LIMIT_CONFIG - 1;
        resetTime := now + windowMs RATE_LIMIT_CONFIG;
        retryAfter := 0 |},
     <[storeKey ip := {| attempts := [now]; firstAttempt := now |}]> s)
  /\ (ip <> ip' ->
      fst (checkRateLimit now ip' (resetRateLimit ip s))
      = fst (checkRateLimit now ip' s))
  /\ (s !! storeKey ip = None -> resetRateLimit ip s = s).
Proof.
  split; [|split].
  - unfold checkRateLimit, resetRateLimit. cbv zeta. rewrite lookup_delete_eq.
    cbn. f_equal. apply insert_delete_eq.
  - intros Hne. apply check_lookup_ext. unfold resetRateLimit.
    apply lookup_delete_ne. intros Heq. now apply Hne, storeKey_inj.
  - intros Hnone. unfold resetRateLimit. now apply delete_id.
Qed.

Lemma reset_forgets_one_client_witness :
  let s := snd (checkRateLimitSeq "1.2.3.4" [10; 20; 30; 40; 50] ∅) in
  allowed (fst (checkRateLimit 60 "1.2.3.4" s)) = false
  /\ allowed (fst (checkRateLimit 60 "1.2.3.4" (resetRateLimit "1.2.3.4" s))) = true
  /\ fst (checkRateLimit 60 "5.6.7.8" (resetRateLimit "1.2.3.4" s))
     = fst (checkRateLimit 60 "5.6.7.8" s)
  /\ resetRateLimit "5.6.7.8" s = s.
Proof.
  intros s.
  destruct (reset_forgets_one_client 60 "1.2.3.4" "5.6.7.8" s) as (Hfresh & Hother & _).
  destruct (reset_forgets_one_client 60 "5.6.7.8" "1.2.3.4" s) as (_ & _ & Hnoop).
  split; [reflexivity|]. split; [now rewrite Hfresh|].
  split; [apply Hother; discriminate | apply Hnoop; reflexivity].
Defined.

Lemma check_lookup_key (now : Z) (ip : string) (s : gmap string Entry) :
  exists d, snd (checkRateLimit now ip s) !! storeKey ip = Some d.
Proof.
  unfold checkRateLimit. cbv zeta.
  destruct (s !! storeKey ip) as [d|]; cbn [fst snd].
  - destruct (_ <? _); rewrite lookup_insert_eq; eauto.
  - cbn [validAttempts List.filter length attempts].
    change (Z.of_nat 0 <? maxRequests RATE_LIMIT_CONFIG) with true. cbn iota.
    rewrite lookup_insert_eq. eauto.
Qed.

Lemma check_size (now : Z) (ip : string) (s : gmap string Entry) :
  size (snd (checkRateLimit now ip s))
  = match s !! storeKey ip with
    | Some _ => size s
    | None => S (size s)
    end.
Proof.
  unfold checkRateLimit. cbv zeta.
  destruct (s !! storeKey ip) as [d|] eqn:E; cbn [fst snd].
  - destruct (_ <? _).
    + rewrite insert_insert_eq. now apply map_size_insert_Some.
    + now apply map_size_insert_Some.
  - cbn [validAttempts List.filter length attempts].
    change (Z.of_nat 0 <? maxRequests RATE_LIMIT_CONFIG) with true. cbn iota.
    now apply map_size_insert_None.
Qed.

Lemma cleanup_subseteq (now : Z) (s : gmap string Entry) : cleanup now s ⊆ s.
Proof.
  apply map_subseteq_spec. intros k d Hk. rewrite cleanup_lookup in Hk.
  destruct (s !! k) as [d0|]; [|discriminate].
  destruct (validAttempts now (attempts d0)); [discriminate|exact Hk].
Qed.

(** X5. The number of tracked addresses reported by [getRateLimitStats] grows
    by one on the call of an address that was not tracked and stays the same
    on any other call, a denied one included; the sweep never raises it, and
    [resetRateLimit] lowers it by one exactly for a tracked address. The
    reported configuration is always [RATE_LIMIT_CONFIG]. *)
Theorem stats_count_tracked_addresses (now : Z) (ip : string) (s : gmap string Entry) :
  let total := fun m => fst (getRateLimitStats m) in
  total (snd (checkRateLimit now ip s))
  = match s !! storeKey ip with
    | Some _ => total s
    | None => S (total s)
    end
  /\ (total (cleanup now s) <= total s)%nat
  /\ total (resetRateLimit ip s)
     = match s !! storeKey ip with
       | Some _ => pred (total s)
       | None => total s
       end
  /\ snd (getRateLimitStats s) = RATE_LIMIT_CONFIG.
Proof.
  cbv zeta. unfold getRateLimitStats. cbn [fst snd].
  split; [apply check_size|]. split; [apply map_subseteq_size, cleanup_subseteq|].
  split; [|reflexivity]. unfold resetRateLimit.
  destruct (s !! storeKey ip) as [d|] eqn:E.
  - rewrite map_size_delete_Some by (rewrite E; eauto). reflexivity.
  - now apply map_size_delete_None.
Qed.

(** ** Invariants of the store *)

Lemma reachable_nonempty (s : gmap string Entry) :
  reachable s -> forall k d, s !! k = Some d -> attempts d <> [].
Proof.
  induction 1 as [|now ip s Hs IH|now s Hs IH|ip s Hs IH]; intros k d Hk.
  - rewrite lookup_empty in Hk. discriminate.
  - destruct (decide (k = storeKey ip)) as [->|Hne].
    + rewrite <- (attemptsOf_lookup _ _ _ Hk), check_attempts.
      destruct (Z.ltb_spec
                  (Z.of_nat (length (validAttempts now (attemptsOf (storeKey ip) s))))
                  (maxRequests RATE_LIMIT_CONFIG)) as [_|Hfull].
      * intros Hnil. apply app_eq_nil in Hnil as [_ Hnil]. discriminate.
      * intros Hnil. rewrite Hnil in Hfull. cbn in Hfull. lia.
    + rewrite check_other in Hk by exact Hne. now apply (IH k).
  - rewrite cleanup_lookup in Hk.
    destruct (s !! k) as [d0|] eqn:E; [|discriminate].
    destruct (validAttempts now (attempts d0)); [discriminate|].
    injection Hk as <-. now apply (IH k).
  - unfold resetRateLimit in Hk. apply lookup_delete_Some in Hk as [_ Hk].
    now apply (IH k).
Qed.

Lemma reachable_keys (s : gmap string Entry) :
  reachable s -> forall k, is_Some (s !! k) -> exists ip, k = storeKey ip.
Proof.
  induction 1 as [|now ip s Hs IH|now s Hs IH|ip s Hs IH]; intros k [d Hk].
  - rewrite lookup_empty in Hk. discriminate.
  - destruct (decide (k = storeKey ip)) as [->|Hne]; [eauto|].
    rewrite check_other in Hk by exact Hne. apply IH. eauto.
  - apply IH. exists d. apply (lookup_weaken _ _ _ _ Hk), cleanup_subseteq.
  - unfold resetRateLimit in Hk. apply lookup_delete_Some in Hk as [_ Hk].
    apply IH. eauto.
Qed.

(** X6. In every store the module can reach, each tracked key is
    ['contact:'] followed by an address and holds at least one and at most
    [maxRequests] attempts: no entry is ever empty, none outgrows the quota. *)
Theorem reachable_entries_sized (s : gmap string Entry) (k : string) (d : Entry) :
  reachable s ->
  s !! k = Some d ->
  (exists ip, k = "contact:" +:+ ip)
  /\ (1 <= length (attempts d))%nat
  /\ Z.of_nat (length (attempts d)) <= maxRequests RATE_LIMIT_CONFIG.
Proof.
  intros Hs Hk. split; [|split].
  - apply (reachable_keys s Hs). eauto.
  - pose proof (reachable_nonempty s Hs k d Hk).
    destruct (attempts d); [congruence | cbn; lia].
  - exact (reachable_bounded s Hs k d Hk).
Qed.

Lemma reachable_entries_sized_witness :
  let s := cleanup 3600025
             (snd (checkRateLimitSeq "1.2.3.4" [10; 20; 30; 40; 50; 60] ∅)) in
  s !! "contact:1.2.3.4"
  = Some {| attempts := [10; 20; 30; 40; 50]; firstAttempt := 10 |}
  /\ (1 <= 5)%nat /\ 5 <= maxRequests RATE_LIMIT_CONFIG.
Proof.
  intros s.
  assert (Hs : reachable s) by (apply reach_cleanup, reachable_seq, reach_empty).
  assert (Hk : s !! "contact:1.2.3.4"
               = Some {| attempts := [10; 20; 30; 40; 50]; firstAttempt := 10 |})
    by (vm_compute; reflexivity).
  split; [exact Hk|].
  exact (proj2 (reachable_entries_sized s _ _ Hs Hk)).
Defined.

(** ** The quota over any window *)

Lemma validAttempts_app (now : Z) (l l' : list Z) :
  validAttempts now (l ++ l') = validAttempts now l ++ validAttempts now l'.
Proof. apply List.filter_app. Qed.

Lemma validAttempts_now (now : Z) : validAttempts now [now] = [now].
Proof. apply validAttempts_all. intros t [<-|[]]. cbn. lia. Qed.

Lemma check_keeps_quota (now : Z) (ip : string) (s : gmap string Entry) :
  Z.of_nat (length (attemptsOf (storeKey ip) s)) <= maxRequests RATE_LIMIT_CONFIG ->
  Z.of_nat (length (attemptsOf (storeKey ip) (snd (checkRateLimit now ip s))))
  <= maxRequests RATE_LIMIT_CONFIG.
Proof.
  intros Hle. rewrite check_attempts.
  pose proof (validAttempts_length now (attemptsOf (storeKey ip) s)) as Hlive.
  destruct (Z.ltb_spec
              (Z.of_nat (length (validAttempts now (attemptsOf (storeKey ip) s))))
              (maxRequests RATE_LIMIT_CONFIG)); [|lia].
  rewrite length_app. cbn [length]. lia.
Qed.

(** Along a clock that never goes back, a key holds exactly the admitted
    readings that are still live at the last reading. *)
Lemma seq_holds_live_admitted (ip : string) (clock : list Z) :
  forall (s : gmap string Entry) (start : Z) (earlier : list Z),
    attemptsOf (storeKey ip) s = validAttempts start earlier ->
    monotone start clock ->
    attemptsOf (storeKey ip) (snd (checkRateLimitSeq ip clock s))
    = validAttempts (lastReading start clock)
        (earlier ++ admittedTimes ip clock s).
Proof.
  induction clock as [|now clock IH]; intros s start earlier Hheld Hmono.
  - cbn. now rewrite app_nil_r.
  - destruct Hmono as [Hstart Hmono].
    cbn [checkRateLimitSeq admittedTimes lastReading].
    pose proof (check_attempts now ip s) as Hs.
    pose proof (check_allowed now ip s) as Ha.
    rewrite Hheld, (validAttempts_later start now earlier Hstart) in Hs, Ha.
    destruct (checkRateLimit now ip s) as [r s1]. cbn [fst snd] in Hs, Ha.
    specialize (IH s1 now (earlier ++ if allowed r then [now] else [])).
    destruct (checkRateLimitSeq ip clock s1) as [rs s2] eqn:Eseq. cbn [snd] in *.
    rewrite app_assoc. apply IH; [|exact Hmono].
    rewrite Hs, Ha, validAttempts_app.
    destruct (_ <? _); [now rewrite validAttempts_now | now rewrite app_nil_r].
Qed.

Lemma seq_keeps_quota (ip : string) (clock : list Z) :
  forall s : gmap string Entry,
    Z.of_nat (length (attemptsOf (storeKey ip) s)) <= maxRequests RATE_LIMIT_CONFIG ->
    Z.of_nat (length (attemptsOf (storeKey ip) (snd (checkRateLimitSeq ip clock s))))
    <= maxRequests RATE_LIMIT_CONFIG.
Proof.
  induction clock as [|now clock IH]; intros s Hle; cbn [checkRateLimitSeq].
  - exact Hle.
  - pose proof (check_keeps_quota now ip s Hle) as H1.
    destruct (checkRateLimit now ip s) as [r s1]. cbn [snd] in H1.
    specialize (IH s1 H1).
    destruct (checkRateLimitSeq ip clock s1) as [rs s2]. exact IH.
Qed.

(** X7. The quota holds over the sliding window, not only per call: along
    any sequence of calls of one address whose clock never goes back, started
    with no attempt recorded for it, the admitted calls whose readings are
    less than [windowMs] before the last reading number at most
    [maxRequests]. *)
Theorem at_most_quota_per_window (ip : string) (s : gmap string Entry)
    (start : Z) (clock : list Z) :
  attemptsOf (storeKey ip) s = [] ->
  monotone start clock ->
  Z.of_nat (length (validAttempts (lastReading start clock)
                      (admittedTimes ip clock s)))
  <= maxRequests RATE_LIMIT_CONFIG.
Proof.
  intros Hfresh Hmono.
  pose proof (seq_holds_live_admitted ip clock s start [] Hfresh Hmono) as Hheld.
  cbn [app] in Hheld. rewrite <- Hheld.
  apply seq_keeps_quota. rewrite Hfresh. cbn. lia.
Qed.

Lemma at_most_quota_per_window_witness :
  let clock := [10; 20; 30; 40; 50; 60; 3600015; 3600016; 3600025; 3600026] in
  admittedTimes "1.2.3.4" clock ∅ = [10; 20; 30; 40; 50; 3600015; 3600025]
  /\ Z.of_nat (length (validAttempts 3600026 (admittedTimes "1.2.3.4" clock ∅))) <= 5.
Proof.
  intros clock. split; [vm_compute; reflexivity|].
  apply (at_most_quota_per_window "1.2.3.4" ∅ 0 clock); [reflexivity|].
  cbn. repeat split; lia.
Defined.

(** ** The sweep and the limiter *)

Lemma cleanup_validAttempts (t now : Z) (k : string) (s : gmap string Entry) :
  t <= now ->
  validAttempts now (attemptsOf k (cleanup t s)) = validAttempts now (attemptsOf k s).
Proof.
  intros Hle. unfold attemptsOf. rewrite cleanup_lookup.
  destruct (s !! k) as [d|]; [|reflexivity].
  destruct (validAttempts t (attempts d)) eqn:E; [|reflexivity].
  rewrite <- (validAttempts_later t now (attempts d) Hle), E. reflexivity.
Qed.

(** X8. The sweep is invisible to clients: a call made at or after the clock
    reading of a sweep gets the answer it would have got without the sweep. *)
Theorem cleanup_is_transparent (t now : Z) (ip : string) (s : gmap string Entry) :
  t <= now ->
  fst (checkRateLimit now ip (cleanup t s)) = fst (checkRateLimit now ip s).
Proof.
  intros Hle. rewrite !check_result. cbv zeta.
  now rewrite (cleanup_validAttempts t now _ s Hle).
Qed.

Lemma cleanup_is_transparent_witness :
  let s := snd (checkRateLimitSeq "1.2.3.4" [10; 20] ∅) in
  cleanup 3600020 s = ∅
  /\ fst (checkRateLimit 3600020 "1.2.3.4" (cleanup 3600020 s))
     = fst (checkRateLimit 3600020 "1.2.3.4" s).
Proof.
  intros s. split; [vm_compute; reflexivity|].
  apply cleanup_is_transparent. lia.
Defined.

(** X9. Sweeping twice is sweeping once: a sweep followed by a sweep at the
    same or a later clock reading leaves the map the later sweep alone would
    leave. *)
Theorem cleanup_absorbs_earlier (t later : Z) (s : gmap string Entry) :
  t <= later -> cleanup later (cleanup t s) = cleanup later s.
Proof.
  intros Hle. apply map_eq. intros k. rewrite !cleanup_lookup.
  destruct (s !! k) as [d|]; [|reflexivity].
  destruct (validAttempts t (attempts d)) eqn:E; [|reflexivity].
  rewrite <- (validAttempts_later t later (attempts d) Hle), E. reflexivity.
Qed.

Lemma cleanup_absorbs_earlier_witness :
  let s := snd (checkRateLimitSeq "1.2.3.4" [10; 20] ∅) in
  cleanup 3600015 (cleanup 3600015 s) = cleanup 3600015 s
  /\ cleanup 3600020 (cleanup 3600015 s) = cleanup 3600020 s.
Proof.
  intros s. split; apply cleanup_absorbs_earlier; lia.
Defined.

(** * Further properties of the handler *)

Lemma tooManyRequests_eval (r : Result) (w : World) :
  tooManyRequests r w
  = if validDate (resetTime r) then (inr (rateLimited r), w)
    else (inl {| errMessage := Some "Invalid time value"; errText := None |}, w).
Proof.
  unfold tooManyRequests, bind, lift, ret, toISOString, validDate, rateLimited.
  destruct (_ <=? _); reflexivity.
Qed.

Lemma POST_denied now env send request w :
  let r := fst (checkRateLimit now (clientIp request) (rateLimitStore w)) in
  allowed r = false ->
  POST now env send request w
  = (if validDate (resetTime r) then rateLimited r
     else failedToSend {| errMessage := Some "Invalid time value"; errText := None |},
     afterCheck now request w).
Proof.
  intros r Hdenied. unfold POST. rewrite tryPOST_unfold. cbv zeta.
  fold r. rewrite Hdenied. cbn [negb]. rewrite tooManyRequests_eval.
  destruct (validDate (resetTime r)); reflexivity.
Qed.

(** X10. The limiter is consulted first: when it denies, the handler answers
    429 with the wait in the body and in [Retry-After], whatever the CSRF pair
    and the payload, without reading the body and without dispatching
    anything. The one exception is a reset time no [Date] can hold, where
    [toISOString] throws and the [catch] clause answers 500. *)
Theorem denied_before_anything_else now env send request w :
  let r := fst (checkRateLimit now (clientIp request) (rateLimitStore w)) in
  allowed r = false ->
  POST now env send request w
  = (if validDate (resetTime r) then rateLimited r
     else failedToSend {| errMessage := Some "Invalid time value"; errText := None |},
     afterCheck now request w).
Proof.
  intros r Hdenied. unfold POST. rewrite tryPOST_unfold. cbv zeta.
  fold r. rewrite Hdenied. cbn [negb].
  unfold tooManyRequests, bind, lift, ret, toISOString.
  fold (validDate (resetTime r)).
  destruct (validDate (resetTime r)); reflexivity.
Qed.

Lemma denied_before_anything_else_witness :
  let w5 :=
    {| rateLimitStore :=
         snd (checkRateLimitSeq "1.2.3.4" [1000; 2000; 3000; 4000; 5000] ∅);
       sent := [] |} in
  let forged := submission None (Some "xyz") (inl {| errMessage := None; errText := None |}) in
  status (fst (POST 6000 env0 sendOk forged w5)) = 429
  /\ sent (snd (POST 6000 env0 sendOk forged w5)) = [].
Proof.
  intros w5 forged.
  rewrite (denied_before_anything_else 6000 env0 sendOk forged w5 eq_refl).
  split; reflexivity.
Defined.

Lemma emailSent_eval (r : Result) (w : World) :
  emailSent r w
  = if validDate (resetTime r) then (inr (sentOk r), w) else (inl rangeError, w).
Proof.
  unfold emailSent, bind, lift, ret, toISOString, validDate, sentOk, rangeError.
  destruct (_ <=? _); reflexivity.
Qed.

Lemma nullish_getProp (body : JsValue) (name : string) :
  nullish body = true -> exists error, getProp body name = inl error.
Proof. destruct body; try discriminate; intros _; eexists; reflexivity. Qed.

(** [POST] follows the decision table. *)
Lemma POST_outcome now env send request w :
  POST now env send request w = outcome now env send request w.
Proof.
  unfold outcome. cbv zeta.
  set (ip := clientIp request).
  set (r := fst (checkRateLimit now ip (rateLimitStore w))).
  set (w1 := afterCheck now request w).
  destruct (allowed r) eqn:Ha; cbn [negb].
  2: { subst r ip. now rewrite POST_denied. }
  destruct (csrfInvalid (csrfCookie request) (xCsrfToken request)) eqn:Hc.
  { now apply POST_csrf_rejected. }
  destruct (json request) as [error|body] eqn:Hjson.
  { now apply POST_json_rejects. }
  destruct (nullish body) eqn:Hnull.
  { destruct (nullish_getProp body "name" Hnull) as [error Herr]. rewrite Herr.
    unfold POST. rewrite tryPOST_unfold. cbv zeta. fold ip. fold r.
    rewrite Ha, Hc, Hjson. cbn [negb].
    unfold bind at 1, lift at 1. unfold bind at 1.
    unfold orElseTry at 1, bind at 1, missing at 1, bind at 1, lift at 1.
    rewrite Herr. reflexivity. }
  rewrite (getProp_field body "name" Hnull).
  destruct (allPresent body) eqn:Hall; cbn [negb].
  2: { now apply (POST_missing now env send request w Ha Hc body). }
  rewrite (POST_dispatches now env send request w Ha Hc body Hjson Hnull Hall).
  fold ip. fold r. fold w1.
  destruct (configured env) eqn:Hconf; cbn [negb].
  2: { now rewrite dispatch_not_configured. }
  rewrite (dispatch_eq env send ip r body w1 Hconf Hnull).
  rewrite bind_send. cbv zeta.
  destruct (send (primaryCall env ip body)) as [error|]; [reflexivity|].
  fold (autoresponseEnabled env). fold (autoresponseCall env body).
  destruct (autoresponseEnabled env).
  - rewrite bind_send. cbv zeta. cbn [sent rateLimitStore].
    rewrite <- app_assoc. cbn [app]. unfold addSent.
    destruct (send (autoresponseCall env body)) as [error|]; [reflexivity|].
    rewrite emailSent_eval. unfold finish.
    destruct (validDate (resetTime r)); reflexivity.
  - unfold bind at 1, ret at 1. rewrite emailSent_eval. unfold finish, addSent.
    destruct (validDate (resetTime r)); reflexivity.
Qed.

Ltac outcome_cases :=
  unfold outcome, finish; cbv zeta;
  repeat match goal with
    | |- context [if negb ?c then _ else _] => destruct c eqn:?; cbn [negb]
    | |- context [if ?c then _ else _] => destruct c eqn:?
    | |- context [match json ?r with _ => _ end] => destruct (json r) eqn:?
    | |- context [match getProp ?b ?n with _ => _ end] => destruct (getProp b n) eqn:?
    | |- context [match ?s ?c with Some _ => _ | None => _ end] => destruct (s c) eqn:?
    end.

(** X11. [POST] answers with one of the five statuses 200, 400, 403, 429 and
    500; it answers 429 exactly when the limiter denies (and the reset time is
    one a [Date] can hold), and 403 exactly when the limiter admits and the
    CSRF pair is invalid. *)
Theorem post_status_codes now env send request w :
  let r := fst (checkRateLimit now (clientIp request) (rateLimitStore w)) in
  let code := status (fst (POST now env send request w)) in
  In code [200; 400; 403; 429; 500]
  /\ (code = 429 <-> allowed r = false /\ validDate (resetTime r) = true)
  /\ (code = 403
      <-> allowed r = true
          /\ csrfInvalid (csrfCookie request) (xCsrfToken request) = true).
Proof.
  cbv zeta. rewrite POST_outcome.
  outcome_cases; cbn [fst status rateLimited failedToSend invalidCsrf missingFields
                        notConfigured sentOk In];
    (split; [auto 10|]); split; split;
    try discriminate; try (intros [? ?]; congruence); auto.
Qed.

(** X12. The mail collaborator is only called for a request that passed every
    check: if [POST] makes any call, the limiter admitted the request, the
    CSRF pair was valid, the body parsed with its four mandatory fields
    truthy, and the three credentials were set. The calls are added after
    those already made: the primary call first, then at most one more. *)
Theorem mail_only_after_all_checks now env send request w :
  let ip := clientIp request in
  let r := fst (checkRateLimit now ip (rateLimitStore w)) in
  let after := sent (snd (POST now env send request w)) in
  after <> sent w ->
  allowed r = true
  /\ csrfInvalid (csrfCookie request) (xCsrfToken request) = false
  /\ exists body,
       json request = inr body
       /\ allPresent body = true
       /\ configured env = true
       /\ exists rest,
            after = sent w ++ primaryCall env ip body :: rest
            /\ (length rest <= 1)%nat.
Proof.
  cbv zeta. rewrite POST_outcome.
  outcome_cases; cbn [snd sent afterCheck addSent]; intros Hsent;
    try (exfalso; apply Hsent; reflexivity);
    (split; [reflexivity|]); (split; [reflexivity|]);
    eexists; (split; [reflexivity|]); (split; [assumption|]);
    (split; [reflexivity|]);
    eexists; (split; [reflexivity | cbn; lia]).
Qed.

Lemma mail_only_after_all_checks_witness :
  let request := submission (Some "abc") (Some "abc") (inr (payload (JBool true))) in
  sent (snd (POST 1000 env0 sendStrict request world0))
  = [primaryCall env0 "1.2.3.4" (payload (JBool true))]
  /\ configured env0 = true.
Proof.
  intros request.
  assert (Hsent : sent (snd (POST 1000 env0 sendStrict request world0)) <> sent world0)
    by (vm_compute; discriminate).
  destruct (mail_only_after_all_checks 1000 env0 sendStrict request world0 Hsent)
    as (_ & _ & body & _ & _ & Hconf & _).
  split; [vm_compute; reflexivity | exact Hconf].
Defined.

(** X13. A 200 is an honest one: [POST] answers 200 only when the limiter
    admitted the request, the CSRF pair was valid, the four mandatory fields
    were truthy, the credentials were set, the collaborator accepted the
    primary call and, when the autoresponse is enabled, accepted that one
    too; the response then carries the limiter's [remaining] and reset
    time. *)
Theorem success_means_delivered now env send request w :
  let ip := clientIp request in
  let r := fst (checkRateLimit now ip (rateLimitStore w)) in
  status (fst (POST now env send request w)) = 200 ->
  allowed r = true
  /\ csrfInvalid (csrfCookie request) (xCsrfToken request) = false
  /\ fst (POST now env send request w) = sentOk r
  /\ exists body,
       json request = inr body
       /\ allPresent body = true
       /\ configured env = true
       /\ send (primaryCall env ip body) = None
       /\ (autoresponseEnabled env = true -> send (autoresponseCall env body) = None).
Proof.
  cbv zeta. rewrite POST_outcome.
  outcome_cases; cbn [fst status rateLimited failedToSend invalidCsrf missingFields
                        notConfigured sentOk];
    intros Hcode; try discriminate;
    (split; [reflexivity|]); (split; [reflexivity|]); (split; [reflexivity|]);
    eexists; (split; [reflexivity|]); (split; [assumption|]);
    (split; [reflexivity|]); (split; [assumption|]);
    intros; congruence.
Qed.

Lemma success_means_delivered_witness :
  let request := submission (Some "abc") (Some "abc") (inr (payload (JBool true))) in
  status (fst (POST 1000 env0 sendOk request world0)) = 200
  /\ fst (POST 1000 env0 sendOk request world0)
     = sentOk {| allowed := true; remaining := 4; resetTime := 3601000;
                 retryAfter := 0 |}.
Proof.
  intros request.
  assert (H : status (fst (POST 1000 env0 sendOk request world0)) = 200)
    by reflexivity.
  split; [exact H|].
  exact (proj1 (proj2 (proj2 (success_means_delivered 1000 env0 sendOk request world0 H)))).
Defined.

(** X14. The autoresponse is part of the request: when the primary call was
    accepted and the autoresponse template is set to something else than the
    placeholder, a second call is made with the same credentials, and its
    rejection is answered 500 'Failed to send email' although the primary
    mail went out; with no autoresponse template, an empty one or the
    placeholder, the primary call is the only one. *)
Theorem autoresponse_failure_fails_request now env send request w body :
  let ip := clientIp request in
  let r := fst (checkRateLimit now ip (rateLimitStore w)) in
  let w1 := afterCheck now request w in
  let primary := primaryCall env ip body in
  let auto := autoresponseCall env body in
  allowed r = true ->
  csrfInvalid (csrfCookie request) (xCsrfToken request) = false ->
  json request = inr body -> nullish body = false -> allPresent body = true ->
  configured env = true ->
  send primary = None ->
  POST now env send request w
  = if autoresponseEnabled env
    then match send auto with
         | Some error => (failedToSend error, addSent w1 [primary; auto])
         | None => (finish r, addSent w1 [primary; auto])
         end
    else (finish r, addSent w1 [primary]).
Proof.
  intros ip r w1 primary auto Ha Hc Hjson Hnull Hall Hconf Hsend.
  subst ip r w1 primary auto.
  rewrite POST_outcome. unfold outcome. cbv zeta.
  rewrite Ha, Hc, Hjson, (getProp_field body "name" Hnull), Hall, Hconf, Hsend.
  reflexivity.
Qed.

Lemma autoresponse_failure_fails_request_witness :
  let env :=
    {| EMAILJS_SERVICE_ID := Some "service_x";
       EMAILJS_TEMPLATE_ID := Some "template_y";
       EMAILJS_PUBLIC_KEY := Some "public_z";
       EMAILJS_PRIVATE_KEY := Some "private";
       EMAILJS_AUTORESPONSE_TEMPLATE_ID := Some "template_auto" |} in
  let send := fun call : SendCall =>
    if differs (sendTemplate call) "template_auto" then None
    else Some {| errMessage := None; errText := Some "Template not found" |} in
  let body := payload (JBool true) in
  let request := submission (Some "abc") (Some "abc") (inr body) in
  POST 1000 env send request world0
  = ({| status := 500;
        body := ErrorBody "Failed to send email" (Some "Template not found") None;
        headers := [] |},
     addSent (afterCheck 1000 request world0)
       [primaryCall env "1.2.3.4" body; autoresponseCall env body]).
Proof.
  intros env send body request.
  exact (autoresponse_failure_fails_request 1000 env send request world0 body
           eq_refl eq_refl eq_refl eq_refl eq_refl eq_refl eq_refl).
Defined.

(** X15. An address the limiter does not track is never answered 429, and
    the request leaves one attempt recorded under that address. *)
Theorem untracked_address_never_limited now env send request w :
  let key := storeKey (clientIp request) in
  rateLimitStore w !! key = None ->
  status (fst (POST now env send request w)) <> 429
  /\ rateLimitStore (snd (POST now env send request w)) !! key
     = Some {| attempts := [now]; firstAttempt := now |}.
Proof.
  intros key Hnone.
  assert (Hfresh : checkRateLimit now (clientIp request) (rateLimitStore w)
                   = ({| allowed := true;
                         remaining := maxRequests RATE_LIMIT_CONFIG - 1;
                         resetTime := now + windowMs RATE_LIMIT_CONFIG;
                         retryAfter := 0 |},
                      <[key := {| attempts := [now]; firstAttempt := now |}]>
                        (rateLimitStore w))).
  { unfold checkRateLimit. cbv zeta. fold key. rewrite Hnone. reflexivity. }
  split.
  - rewrite POST_outcome. unfold outcome. cbv zeta. rewrite Hfresh.
    cbn [fst allowed negb].
    outcome_cases; cbn [fst status failedToSend invalidCsrf missingFields
                          notConfigured sentOk]; discriminate.
  - rewrite POST_store, Hfresh. cbn [snd]. apply lookup_insert_eq.
Qed.

Lemma untracked_address_never_limited_witness :
  let spoofed :=
    {| xForwardedFor := Some "203.0.113.99"; xRealIp := Some "1.2.3.4";
       xCsrfToken := None; csrfCookie := None; json := inr JNull |} in
  let w5 :=
    {| rateLimitStore :=
         snd (checkRateLimitSeq "1.2.3.4" [1000; 2000; 3000; 4000; 5000] ∅);
       sent := [] |} in
  status (fst (POST 6000 env0 sendOk spoofed w5)) <> 429
  /\ rateLimitStore (snd (POST 6000 env0 sendOk spoofed w5))
     !! storeKey "203.0.113.99"
     = Some {| attempts := [6000]; firstAttempt := 6000 |}.
Proof.
  intros spoofed w5.
  apply (untracked_address_never_limited 6000 env0 sendOk spoofed w5).
  vm_compute. reflexivity.
Defined.

(** ** The client key *)

Lemma orString_nonempty (a : option string) (d : string) :
  d <> "" -> orString a d <> "".
Proof.
  intros Hd. unfold orString. destruct a as [x|]; [|exact Hd].
  destruct (String.eqb_spec x ""); [exact Hd | assumption].
Qed.

Lemma orString_truthy (x d : string) : x <> "" -> orString (Some x) d = x.
Proof.
  intros Hx. unfold orString. destruct (String.eqb_spec x ""); [contradiction|reflexivity].
Qed.

Lemma firstField_app (first rest : string) :
  ~ In ","%char (list_ascii_of_string first) ->
  firstField (first +:+ "," +:+ rest) = first.
Proof.
  induction first as [|c first IH]; intros Hno.
  - reflexivity.
  - cbn in Hno. change (firstField (String c (first +:+ "," +:+ rest)) = String c first).
    cbn [firstField]. destruct (Ascii.eqb_spec c ","%char) as [->|_].
    + exfalso. apply Hno. now left.
    + f_equal. apply IH. tauto.
Qed.

Lemma firstField_no_comma (first : string) :
  ~ In ","%char (list_ascii_of_string first) -> firstField first = first.
Proof.
  induction first as [|c first IH]; intros Hno; [reflexivity|].
  cbn in Hno. cbn [firstField]. destruct (Ascii.eqb_spec c ","%char) as [->|_].
  - exfalso. apply Hno. now left.
  - f_equal. apply IH. tauto.
Qed.

(** X16. The client key is never empty. Of a forwarded-for list only the
    first entry counts, trimmed: whatever follows the first comma has no
    effect. When that entry is missing or blank the real-IP header is used,
    and when that one is missing or empty too the key is ['unknown'], so that
    all such clients share one quota. *)
Theorem client_key_from_headers (request : Request) :
  clientIp request <> ""
  /\ (forall first rest,
        ~ In ","%char (list_ascii_of_string first) ->
        trim first <> "" ->
        xForwardedFor request = Some (first +:+ "," +:+ rest)
        \/ xForwardedFor request = Some first ->
        clientIp request = trim first)
  /\ (xForwardedFor request = None
      \/ (exists v, xForwardedFor request = Some v /\ trim (firstField v) = "") ->
      clientIp request = orString (xRealIp request) "unknown")
  /\ (xForwardedFor request = None ->
      xRealIp request = None \/ xRealIp request = Some "" ->
      clientIp request = "unknown").
Proof.
  unfold clientIp. split; [|split; [|split]].
  - apply orString_nonempty, orString_nonempty. discriminate.
  - intros first rest Hno Htrim [->| ->]; cbn [option_map].
    + rewrite firstField_app by exact Hno. now apply orString_truthy.
    + rewrite firstField_no_comma by exact Hno. now apply orString_truthy.
  - intros [->|(v & -> & Hblank)]; cbn [option_map]; [reflexivity|].
    now rewrite Hblank.
  - intros -> [->| ->]; reflexivity.
Qed.

Lemma client_key_from_headers_witness :
  let proxied :=
    {| xForwardedFor := Some " 203.0.113.7 , 10.0.0.1, 10.0.0.2"; xRealIp := None;
       xCsrfToken := None; csrfCookie := None; json := inr JNull |} in
  let bare :=
    {| xForwardedFor := None; xRealIp := Some "";
       xCsrfToken := None; csrfCookie := None; json := inr JNull |} in
  clientIp proxied = "203.0.113.7" /\ clientIp bare = "unknown".
Proof.
  intros proxied bare. split.
  - destruct (client_key_from_headers proxied) as (_ & Hfirst & _).
    apply (Hfirst " 203.0.113.7 " " 10.0.0.1, 10.0.0.2").
    + cbn. intuition discriminate.
    + discriminate.
    + left. reflexivity.
  - destruct (client_key_from_headers bare) as (_ & _ & _ & Hnone).
    apply Hnone; [reflexivity | right; reflexivity].
Defined.

(** * The CSRF token from the middleware to the handler *)

Lemma append_snoc (a : string) (c : ascii) (b : string) :
  (a +:+ String c "") +:+ b = a +:+ String c b.
Proof.
  induction a as [|x a IH]; [reflexivity|].
  change (String x ((a +:+ String c "") +:+ b) = String x (a +:+ String c b)).
  now f_equal.
Qed.

Lemma append_nil_r (a : string) : a +:+ "" = a.
Proof.
  induction a as [|x a IH]; [reflexivity|].
  change (String x (a +:+ "") = String x a). now f_equal.
Qed.

Lemma prefix_other_head (c0 c : ascii) (sep' rest : string) :
  c0 <> c -> String.prefix (String c0 sep') (String c rest) = false.
Proof. intros Hne. cbn. destruct (ascii_dec c0 c); [contradiction|reflexivity]. Qed.

Lemma prefix_app (p s : string) : String.prefix p (p +:+ s) = true.
Proof.
  induction p as [|c p IH]; [destruct s; reflexivity|].
  change (String c p +:+ s) with (String c (p +:+ s)). cbn [String.prefix].
  destruct (ascii_dec c c); [exact IH|contradiction].
Qed.

Section Split.

Variables (c0 : ascii) (sep' : string).

Let sep := String c0 sep'.

(** A string without the first character of the separator is one piece. *)
Lemma splitFrom_one_piece (s : string) :
  forall current, without c0 s -> splitFrom sep 0 current s = [current +:+ s].
Proof.
  induction s as [|c s IH]; intros current Hno.
  - cbn. now rewrite append_nil_r.
  - cbn [splitFrom]. unfold sep. rewrite prefix_other_head.
    + rewrite IH, append_snoc; [reflexivity|].
      intros Hin. apply Hno. now right.
    + intros ->. apply Hno. now left.
Qed.

Lemma splitFrom_skip (x b : string) :
  forall current,
    splitFrom sep (String.length x) current (x +:+ b) = splitFrom sep 0 current b.
Proof.
  induction x as [|c x IH]; intros current.
  - cbn [String.length]. reflexivity.
  - cbn [String.length]. exact (IH current).
Qed.

(** Up to the first separator: the piece before it, then the pieces of the
    rest. *)
Lemma splitFrom_first_piece (a b : string) :
  forall current,
    without c0 a ->
    splitFrom sep 0 current (a +:+ sep +:+ b)
    = (current +:+ a) :: splitFrom sep 0 "" b.
Proof.
  induction a as [|c a IH]; intros current Hno.
  - change ("" +:+ sep +:+ b) with (String c0 (sep' +:+ b)).
    cbn [splitFrom]. change (String c0 (sep' +:+ b)) with (sep +:+ b).
    rewrite prefix_app, append_nil_r. f_equal.
    unfold sep. cbn [String.length].
    replace (S (String.length sep') - 1)%nat with (String.length sep') by lia.
    apply splitFrom_skip.
  - change (String c a +:+ sep +:+ b) with (String c (a +:+ sep +:+ b)).
    cbn [splitFrom]. unfold sep. rewrite prefix_other_head.
    + rewrite IH, append_snoc; [reflexivity|].
      intros Hin. apply Hno. now right.
    + intros ->. apply Hno. now left.
Qed.

(** Splitting what [join] laid out gives the rows back. *)
Lemma split_join (rows : list string) :
  rows <> [] -> Forall (without c0) rows -> split sep (join sep rows) = rows.
Proof.
  unfold split. induction rows as [|row rows IH]; intros Hne Hall; [congruence|].
  apply Forall_cons in Hall as [Hrow Hall].
  destruct rows as [|next rows].
  - cbn [join]. now rewrite splitFrom_one_piece.
  - change (join sep (row :: next :: rows))
      with (row +:+ sep +:+ join sep (next :: rows)).
    rewrite splitFrom_first_piece by exact Hrow. cbn [String.app].
    f_equal. now apply IH.
Qed.

End Split.

Example split_like_javascript :
  split "; " "a=1; csrf-token=x; b" = ["a=1"; "csrf-token=x"; "b"]
  /\ split "; " "" = [""]
  /\ split "=" "csrf-token=ab=cd" = ["csrf-token"; "ab"; "cd"]
  /\ split "; " "a; " = ["a"; ""]
  /\ split "; " "a;b" = ["a;b"].
Proof. repeat split; reflexivity. Qed.

Lemma without_app (c : ascii) (a b : string) :
  without c a -> without c b -> without c (a +:+ b).
Proof.
  unfold without. induction a as [|x a IH]; intros Ha Hb; [exact Hb|].
  change (String x a +:+ b) with (String x (a +:+ b)). cbn in *.
  intros [->|Hin]; [apply Ha; now left|].
  apply IH in Hin; [exact Hin| |exact Hb]. intros H. apply Ha. now right.
Qed.

Lemma without_token_row (t : string) :
  without ";" t -> without ";" ("csrf-token=" +:+ t).
Proof.
  intros Ht. apply without_app; [|exact Ht].
  unfold without. cbn. intuition discriminate.
Qed.

(** What the form reads in a [document.cookie] made of the given rows. *)
Lemma csrfTokenFromCookie_rows (rows : list string) :
  Forall (without ";") rows ->
  csrfTokenFromCookie (join "; " rows)
  = match List.find (startsWith "csrf-token=") rows with
    | Some row => nth_error (split "=" row) 1
    | None => None
    end.
Proof.
  intros Hrows. unfold csrfTokenFromCookie.
  destruct rows as [|row rows]; [reflexivity|].
  now rewrite (split_join ";" " ") by (congruence || assumption).
Qed.

Lemma find_first_match {A} (f : A -> bool) (before : list A) (x : A) (after : list A) :
  Forall (fun y => f y = false) before -> f x = true ->
  List.find f (before ++ x :: after) = Some x.
Proof.
  intros Hbefore Hx. induction Hbefore as [|y before Hy _ IH]; cbn.
  - now rewrite Hx.
  - now rewrite Hy.
Qed.

Lemma find_no_match {A} (f : A -> bool) (l : list A) :
  Forall (fun y => f y = false) l -> List.find f l = None.
Proof. induction 1 as [|y l Hy _ IH]; cbn; [reflexivity|]. now rewrite Hy. Qed.

Lemma token_row_pieces (t : string) :
  exists more, split "=" ("csrf-token=" +:+ t) = "csrf-token" :: more
               /\ more = splitFrom "=" 0 "" t.
Proof.
  eexists. split; [|reflexivity].
  change ("csrf-token=" +:+ t) with ("csrf-token" +:+ "=" +:+ t).
  unfold split. rewrite (splitFrom_first_piece "=" "" "csrf-token" t "");
    [reflexivity|].
  unfold without. cbn. intuition discriminate.
Qed.

Lemma token_row_startsWith (t : string) : startsWith "csrf-token=" ("csrf-token=" +:+ t) = true.
Proof. apply prefix_app. Qed.

Section Session.

Variables (before after : list string).

(** The other cookies of the page: none holds a [;], and those laid out
    before the token are not themselves a [csrf-token] row. *)
Hypothesis othersBefore :
  Forall (fun row => without ";" row /\ startsWith "csrf-token=" row = false) before.
Hypothesis othersAfter : Forall (without ";") after.

Lemma csrfTokenFromCookie_session (value : string) :
  without ";" value ->
  csrfTokenFromCookie (join "; " (before ++ ("csrf-token=" +:+ value) :: after))
  = nth_error (splitFrom "=" 0 "" value) 0.
Proof.
  intros Hvalue. rewrite csrfTokenFromCookie_rows.
  - rewrite (find_first_match _ before _ after).
    + destruct (token_row_pieces value) as (more & -> & ->). reflexivity.
    + eapply Forall_impl; [exact othersBefore|]. now intros row [_ H].
    + apply token_row_startsWith.
  - apply Forall_app. split.
    + eapply Forall_impl; [exact othersBefore|]. now intros row [H _].
    + constructor; [now apply without_token_row | exact othersAfter].
Qed.

End Session.

Lemma length_append (a b : string) :
  String.length (a +:+ b) = (String.length a + String.length b)%nat.
Proof.
  induction a as [|x a IH]; [reflexivity|].
  change (String x a +:+ b) with (String x (a +:+ b)). cbn. now rewrite IH.
Qed.

Lemma orString_self (x : string) : orString (Some x) "" = x.
Proof. unfold orString. now destruct (String.eqb_spec x ""). Qed.

Lemma csrfInvalid_empty_header (cookie : option string) :
  csrfInvalid cookie (Some "") = true.
Proof.
  apply csrfInvalid_true. destruct cookie as [c|]; [|now left].
  destruct (String.eqb_spec c "") as [->|Hne]; [right; now left|].
  right. right. right. congruence.
Qed.

(** X17. The token round trip. On a first visit the middleware issues the
    fresh token in a [csrf-token] cookie that scripts can read, and issues
    nothing once the request carries a token. When that token holds neither
    [;] nor [=] and is not empty (a UUID is such), the form finds it among the
    cookies of the page, whatever the other cookies and their order, sends it
    back unchanged, and the handler does not answer 403 to a request the
    limiter admits. *)
Theorem issued_token_is_accepted now env send request w
    (nodeEnv : option string) (randomUUID another : string)
    (before after : list string) :
  Forall (fun row => without ";" row /\ startsWith "csrf-token=" row = false) before ->
  Forall (without ";") after ->
  randomUUID <> "" -> without ";" randomUUID -> without "=" randomUUID ->
  let documentCookie :=
    join "; " (before ++ ("csrf-token=" +:+ randomUUID) :: after) in
  (exists options,
     middleware nodeEnv randomUUID None
     = Some {| cookieName := "csrf-token"; cookieValue := randomUUID;
               cookieOptions := options |}
     /\ httpOnly options = false)
  /\ middleware nodeEnv another (Some randomUUID) = None
  /\ csrfHeader documentCookie = randomUUID
  /\ (allowed (fst (checkRateLimit now (clientIp request) (rateLimitStore w))) = true ->
      csrfCookie request = Some randomUUID ->
      xCsrfToken request = Some (csrfHeader documentCookie) ->
      status (fst (POST now env send request w)) <> 403).
Proof.
  intros Hbefore Hafter Hne Hsemi Hequals documentCookie.
  assert (Hheader : csrfHeader documentCookie = randomUUID).
  { unfold csrfHeader. subst documentCookie.
    rewrite (csrfTokenFromCookie_session before after Hbefore Hafter _ Hsemi).
    rewrite (splitFrom_one_piece "=" "" randomUUID "" Hequals).
    cbn [nth_error String.app]. apply orString_self. }
  split; [|split; [|split]].
  - eexists. split; reflexivity.
  - unfold middleware, truthyStr.
    destruct (String.eqb_spec randomUUID ""); [contradiction|reflexivity].
  - exact Hheader.
  - intros Ha Hcookie Hsent. rewrite Hheader in Hsent.
    assert (Hc : csrfInvalid (csrfCookie request) (xCsrfToken request) = false)
      by (rewrite Hcookie, Hsent; now apply csrfInvalid_false).
    pose proof (POST_past_csrf now env send request w Ha Hc) as H.
    cbv zeta in H. lia.
Qed.

Lemma issued_token_is_accepted_witness :
  let uuid := "3f0c2a52-7b1e-4d0a-9a57-2f6f0e1d9c11" in
  let documentCookie := "theme=dark; csrf-token=3f0c2a52-7b1e-4d0a-9a57-2f6f0e1d9c11; lang=fr" in
  let request := submission (Some uuid) (Some (csrfHeader documentCookie))
                   (inr (payload (JBool true))) in
  csrfHeader documentCookie = uuid
  /\ status (fst (POST 1000 env0 sendOk request world0)) <> 403.
Proof.
  intros uuid documentCookie request.
  assert (Hequals : without "=" uuid) by (unfold without; cbn; intuition discriminate).
  destruct (issued_token_is_accepted 1000 env0 sendOk request world0
              (Some "production") uuid "another" ["theme=dark"] ["lang=fr"])
    as (_ & _ & Hheader & Hpass).
  - repeat constructor. unfold without; cbn; intuition discriminate.
  - repeat constructor. unfold without; cbn; intuition discriminate.
  - discriminate.
  - unfold without; cbn; intuition discriminate.
  - exact Hequals.
  - split; [exact Hheader|]. apply Hpass; reflexivity.
Defined.

(** X18. A token that holds an [=] does not survive the form: the form sends
    only what stands before the first [=], so the header differs from the
    cookie and a request the limiter admits is answered 403. *)
Theorem token_with_equals_is_rejected now env send request w
    (before after : list string) (head tail : string) :
  Forall (fun row => without ";" row /\ startsWith "csrf-token=" row = false) before ->
  Forall (without ";") after ->
  without ";" head -> without "=" head -> without ";" tail ->
  let value := head +:+ "=" +:+ tail in
  let documentCookie := join "; " (before ++ ("csrf-token=" +:+ value) :: after) in
  csrfHeader documentCookie = head
  /\ (allowed (fst (checkRateLimit now (clientIp request) (rateLimitStore w))) = true ->
      csrfCookie request = Some value ->
      xCsrfToken request = Some (csrfHeader documentCookie) ->
      POST now env send request w = (invalidCsrf, afterCheck now request w)).
Proof.
  intros Hbefore Hafter Hsemi Hequals Htail value documentCookie.
  assert (Hvalue : without ";" value).
  { apply without_app; [exact Hsemi|]. apply without_app; [|exact Htail].
    unfold without. cbn. intuition discriminate. }
  assert (Hheader : csrfHeader documentCookie = head).
  { unfold csrfHeader. subst documentCookie.
    rewrite (csrfTokenFromCookie_session before after Hbefore Hafter _ Hvalue).
    subst value. rewrite (splitFrom_first_piece "=" "" head tail "" Hequals).
    cbn [nth_error String.app]. apply orString_self. }
  split; [exact Hheader|].
  intros Ha Hcookie Hsent. rewrite Hheader in Hsent.
  apply POST_csrf_rejected; [exact Ha|]. rewrite Hcookie, Hsent.
  apply csrfInvalid_true. right. right. right. intros [= Heq].
  apply (f_equal String.length) in Heq. subst value.
  rewrite !length_append in Heq. cbn in Heq. lia.
Qed.

Lemma token_with_equals_is_rejected_witness :
  let value := "dG9rZW4=" in
  let documentCookie := "csrf-token=dG9rZW4=" in
  let request := submission (Some value) (Some (csrfHeader documentCookie))
                   (inr (payload (JBool true))) in
  csrfHeader documentCookie = "dG9rZW4"
  /\ status (fst (POST 1000 env0 sendOk request world0)) = 403.
Proof.
  intros value documentCookie request.
  destruct (token_with_equals_is_rejected 1000 env0 sendOk request world0
              [] [] "dG9rZW4" "") as [Hheader Hreject].
  - constructor.
  - constructor.
  - unfold without; cbn; intuition discriminate.
  - unfold without; cbn; intuition discriminate.
  - unfold without; cbn; tauto.
  - split; [exact Hheader|].
    rewrite Hreject; reflexivity.
Defined.

(** X19. Without a [csrf-token] row among the cookies the form sends an
    empty header, and the handler answers 403 to such a request whenever the
    limiter admits it, whatever cookie the request itself carries. *)
Theorem missing_token_is_rejected now env send request w (rows : list string) :
  Forall (fun row => without ";" row /\ startsWith "csrf-token=" row = false) rows ->
  let documentCookie := join "; " rows in
  csrfHeader documentCookie = ""
  /\ (allowed (fst (checkRateLimit now (clientIp request) (rateLimitStore w))) = true ->
      xCsrfToken request = Some (csrfHeader documentCookie) ->
      POST now env send request w = (invalidCsrf, afterCheck now request w)).
Proof.
  intros Hrows documentCookie.
  assert (Hheader : csrfHeader documentCookie = "").
  { unfold csrfHeader. subst documentCookie. rewrite csrfTokenFromCookie_rows.
    - rewrite find_no_match; [reflexivity|].
      eapply Forall_impl; [exact Hrows|]. now intros row [_ H].
    - eapply Forall_impl; [exact Hrows|]. now intros row [H _]. }
  split; [exact Hheader|].
  intros Ha Hsent. rewrite Hheader in Hsent.
  apply POST_csrf_rejected; [exact Ha|]. rewrite Hsent.
  apply csrfInvalid_empty_header.
Qed.

Lemma missing_token_is_rejected_witness :
  let documentCookie := "theme=dark; lang=fr" in
  let request := submission (Some "abc") (Some (csrfHeader documentCookie))
                   (inr (payload (JBool true))) in
  csrfHeader documentCookie = ""
  /\ status (fst (POST 1000 env0 sendOk request world0)) = 403.
Proof.
  intros documentCookie request.
  destruct (missing_token_is_rejected 1000 env0 sendOk request world0
              ["theme=dark"; "lang=fr"]) as [Hheader Hreject].
  - repeat constructor; unfold without; cbn; intuition discriminate.
  - split; [exact Hheader|]. rewrite Hreject; reflexivity.
Defined.

(** * What the form shows *)

Lemma pretty_N_char_digit (x : N) :
  In (pretty_N_char x) (list_ascii_of_string "0123456789").
Proof. unfold pretty_N_char. repeat case_match; cbn; tauto. Qed.

Lemma pretty_N_go_chars (c : ascii) (x : N) :
  forall s,
    ~ In c (list_ascii_of_string "0123456789") ->
    without c s -> without c (pretty_N_go x s).
Proof.
  induction (N.lt_wf_0 x) as [x _ IH]; intros s Hc Hs.
  assert (x = 0 \/ 0 < x)%N as [->|Hpos] by lia.
  - now rewrite pretty_N_go_0.
  - rewrite pretty_N_go_step by exact Hpos. apply IH.
    + now apply N.div_lt.
    + exact Hc.
    + unfold without. cbn. intros [<-|Hin]; [|now apply Hs].
      apply Hc, pretty_N_char_digit.
Qed.

Lemma pretty_Z_chars (c : ascii) (z : Z) :
  ~ In c (list_ascii_of_string "0123456789-") -> without c (pretty z).
Proof.
  intros Hc.
  assert (Hdigit : ~ In c (list_ascii_of_string "0123456789"))
    by (cbn in *; tauto).
  assert (Hpos : forall p, without c (pretty (N.pos p))).
  { intros p. unfold pretty, pretty_N. rewrite decide_False by discriminate.
    apply pretty_N_go_chars; [exact Hdigit|]. unfold without. cbn. tauto. }
  destruct z as [|p|p].
  - unfold without. cbn in *. tauto.
  - apply Hpos.
  - change (pretty (Z.neg p)) with ("-" +:+ pretty (N.pos p)).
    apply without_app; [|apply Hpos]. unfold without. cbn in *. tauto.
Qed.

Lemma includes_head (c : ascii) (needle s : string) :
  includes (String c needle) s = true -> In c (list_ascii_of_string s).
Proof.
  induction s as [|x s IH]; cbn [includes].
  - cbn. discriminate.
  - intros H. apply orb_true_iff in H as [H|H].
    + cbn in H. destruct (ascii_dec c x) as [->|]; [now left|discriminate].
    + right. now apply IH.
Qed.

Lemma includes_prefix (needle s : string) : includes needle (needle +:+ s) = true.
Proof.
  destruct (needle +:+ s) eqn:E; cbn [includes]; rewrite <- E, prefix_app;
    reflexivity.
Qed.

Lemma without_rateLimitMessage (c : ascii) (retryAfter : Z) :
  ~ In c (list_ascii_of_string
            "Trop de tentatives. Veuillez patienter 0123456789- minutes secondes avant de réessayer.") ->
  without c (rateLimitMessage retryAfter).
Proof.
  intros Hc. unfold rateLimitMessage. cbv zeta.
  assert (Hfixed : forall s,
             (forall x, In x (list_ascii_of_string s) ->
                        In x (list_ascii_of_string
                                "Trop de tentatives. Veuillez patienter 0123456789- minutes secondes avant de réessayer.")) ->
             without c s).
  { intros s Hs Hin. apply Hc, Hs, Hin. }
  assert (Hnum : forall z : Z, without c (pretty z)).
  { intros z. apply pretty_Z_chars. intros Hin. apply Hc. cbn in *. tauto. }
  repeat first
    [ apply without_app
    | apply Hnum
    | match goal with |- without _ (if ?b then _ else _) => destruct b end
    | apply Hfixed; cbn; tauto ].
Qed.

(** The 429 message goes through the [catch] clause unchanged. *)
Lemma shown_rateLimitMessage (retryAfter : Z) :
  shownMessage (rateLimitMessage retryAfter) = rateLimitMessage retryAfter.
Proof.
  unfold shownMessage.
  assert (H1 : includes "CSRF" (rateLimitMessage retryAfter) = false).
  { destruct (includes "CSRF" _) eqn:E; [|reflexivity].
    apply includes_head in E. exfalso. revert E.
    apply without_rateLimitMessage. cbn. intuition discriminate. }
  assert (H2 : includes "Invalid CSRF token" (rateLimitMessage retryAfter) = false).
  { destruct (includes "Invalid CSRF token" _) eqn:E; [|reflexivity].
    apply includes_head in E. exfalso. revert E.
    apply without_rateLimitMessage. cbn. intuition discriminate. }
  rewrite H1, H2. cbn [orb].
  assert (H3 : includes "Trop de tentatives" (rateLimitMessage retryAfter) = true).
  { unfold rateLimitMessage. cbv zeta.
    match goal with
    | |- includes _ (_ +:+ ?rest) = true =>
        change (includes "Trop de tentatives"
                  ("Trop de tentatives" +:+ (". Veuillez patienter " +:+ rest)) = true)
    end.
    apply includes_prefix. }
  now rewrite H3.
Qed.

(** X20. The wait shown for a 429 is always in whole minutes, rounded up:
    for a wait of at least one second the message names the number [m] of
    minutes with [60 (m - 1) < retryAfter <= 60 m], in the plural from two
    on, and the branch that would print seconds is never taken. *)
Theorem wait_is_shown_in_minutes (retryAfter : Z) :
  1 <= retryAfter ->
  let m := ceilDiv retryAfter 60 in
  1 <= m /\ 60 * (m - 1) < retryAfter <= 60 * m
  /\ rateLimitMessage retryAfter
     = "Trop de tentatives. Veuillez patienter "
       +:+ (pretty m +:+ " minute" +:+ (if 1 <? m then "s" else ""))
       +:+ " avant de réessayer.".
Proof.
  intros Hwait m.
  assert (Hm : 60 * (m - 1) < retryAfter <= 60 * m)
    by (subst m; unfold ceilDiv; Z.div_mod_to_equations; lia).
  split; [lia|]. split; [exact Hm|].
  unfold rateLimitMessage. cbv zeta. fold m.
  destruct (Z.ltb_spec 0 m); [reflexivity|lia].
Qed.

Lemma wait_is_shown_in_minutes_witness :
  rateLimitMessage 30
  = "Trop de tentatives. Veuillez patienter 1 minute avant de réessayer."
  /\ rateLimitMessage 3595
     = "Trop de tentatives. Veuillez patienter 60 minutes avant de réessayer.".
Proof.
  assert (H30 : 1 <= 30) by lia. assert (H3595 : 1 <= 3595) by lia.
  split.
  - exact (proj2 (proj2 (wait_is_shown_in_minutes 30 H30))).
  - exact (proj2 (proj2 (wait_is_shown_in_minutes 3595 H3595))).
Defined.

Lemma denied_wait_positive (now : Z) (ip : string) (s : gmap string Entry) :
  allowed (fst (checkRateLimit now ip s)) = false ->
  1 <= retryAfter (fst (checkRateLimit now ip s)).
Proof.
  intros Hdenied. rewrite check_allowed in Hdenied. rewrite check_retryAfter, Hdenied.
  set (live := validAttempts now (attemptsOf (storeKey ip) s)).
  assert (Hfuture : now < orElse (head live) now + windowMs RATE_LIMIT_CONFIG).
  { destruct (orElse_cases (head live) now) as [->|Hhead]; [cbn; lia|].
    apply head_validAttempts in Hhead. lia. }
  pose proof (ceilDiv_bounds
                (orElse (head live) now + windowMs RATE_LIMIT_CONFIG - now)). lia.
Qed.

(** X21. From the handler to the screen. Whatever the request, the form turns
    the response of [POST] into: the confirmation page on 200; the wait
    message computed from the limiter's [retryAfter] on 429; the 'refresh the
    page' security message on 403; and otherwise the [error] text of the
    response, which is 'Missing required fields' on 400 and, on 500, one of
    'Email service not configured' and 'Failed to send email': the text of
    the exception that made a send fail is never shown. *)
Theorem what_the_form_shows now env send request w :
  let r := fst (checkRateLimit now (clientIp request) (rateLimitStore w)) in
  let response := fst (POST now env send request w) in
  afterResponse response
  = match status response with
    | 200 => Redirected "/contact/confirmation"
    | 429 => Snackbar (rateLimitMessage (retryAfter r))
    | 403 => Snackbar "Erreur de sécurité. Veuillez rafraîchir la page et réessayer."
    | _ => Snackbar (errorText response)
    end
  /\ (status response = 400 -> errorText response = "Missing required fields")
  /\ (status response = 500 ->
      errorText response = "Email service not configured"
      \/ errorText response = "Failed to send email").
Proof.
  cbv zeta. rewrite POST_outcome.
  outcome_cases; cbn [fst];
    try (split; [reflexivity|]; split; intros; (discriminate || auto)).
  match goal with
  | H : allowed _ = false |- _ => pose proof (denied_wait_positive _ _ _ H) as Hwait
  end.
  split; [|split; intros; discriminate].
  unfold afterResponse, thrownMessage. cbn [ok rateLimited status body negb andb].
  change (429 =? 429) with true. change ((200 <=? 429) && (429 <=? 299)) with false.
  cbn [negb andb].
  destruct (Z.eqb_spec
              (retryAfter (fst (checkRateLimit now (clientIp request) (rateLimitStore w))))
              0) as [Hzero|_]; [lia|].
  cbn [negb]. now rewrite shown_rateLimitMessage.
Qed.

Lemma what_the_form_shows_witness :
  let noConsent :=
    submission (Some "abc") (Some "abc")
      (inr (JObject [("name", JString "Ada"); ("email", JString "ada@example.org");
                     ("message", JString "Bonjour")])) in
  let accepted := submission (Some "abc") (Some "abc") (inr (payload (JBool true))) in
  afterResponse (fst (POST 1000 env0 sendOk noConsent world0))
  = Snackbar "Missing required fields"
  /\ afterResponse (fst (POST 1000 env0 sendStrict accepted world0))
     = Snackbar "Failed to send email"
  /\ afterResponse (fst (POST 1000 env0 sendOk accepted world0))
     = Redirected "/contact/confirmation".
Proof.
  intros noConsent accepted.
  destruct (what_the_form_shows 1000 env0 sendOk noConsent world0) as (Hshow & _ & _).
  destruct (what_the_form_shows 1000 env0 sendStrict accepted world0) as (Hshow' & _ & _).
  destruct (what_the_form_shows 1000 env0 sendOk accepted world0) as (Hshow'' & _ & _).
  split; [|split].
  - rewrite Hshow. reflexivity.
  - rewrite Hshow'. reflexivity.
  - rewrite Hshow''. reflexivity.
Defined.

(** * Requests in a row *)

Lemma POST_admitted_not_429 now env send request w :
  allowed (fst (checkRateLimit now (clientIp request) (rateLimitStore w))) = true ->
  status (fst (POST now env send request w)) <> 429.
Proof.
  intros Ha. rewrite POST_outcome. unfold outcome. cbv zeta. rewrite Ha.
  cbn [negb].
  outcome_cases; cbn [fst status failedToSend invalidCsrf missingFields
                        notConfigured sentOk]; discriminate.
Qed.

(** Requests of one client in a row: the limiter sees the same calls as if
    it had been called directly, and every request it admits is answered
    with something else than 429. *)
Lemma POSTSeq_limiter env send (ip : string) (calls : list (Z * Request)) :
  forall w,
    Forall (fun call => clientIp (snd call) = ip) calls ->
    rateLimitStore (snd (POSTSeq env send calls w))
    = snd (checkRateLimitSeq ip (List.map fst calls) (rateLimitStore w))
    /\ Forall2 (fun response r => allowed r = true -> status response <> 429)
         (fst (POSTSeq env send calls w))
         (fst (checkRateLimitSeq ip (List.map fst calls) (rateLimitStore w))).
Proof.
  induction calls as [|[now request] calls IH]; intros w Hsame.
  - split; [reflexivity|constructor].
  - apply Forall_cons in Hsame as [Hip Hsame]. cbn [snd] in Hip.
    cbn [POSTSeq List.map fst checkRateLimitSeq].
    pose proof (POST_store now env send request w) as Hstore.
    pose proof (POST_admitted_not_429 now env send request w) as Hstatus.
    rewrite Hip in Hstore, Hstatus.
    destruct (POST now env send request w) as [response w1].
    destruct (checkRateLimit now ip (rateLimitStore w)) as [r s1].
    cbn [fst snd] in Hstore, Hstatus. subst s1.
    destruct (IH w1 Hsame) as [IHstore IHall].
    destruct (POSTSeq env send calls w1) as [responses w2].
    destruct (checkRateLimitSeq ip (List.map fst calls) (rateLimitStore w1))
      as [rs s2].
    cbn [fst snd] in *. split; [exact IHstore|]. now constructor.
Qed.

(** X22. Five requests, then the sixth. When [maxRequests] requests of one
    client, not tracked before, are handled at clock readings that fall in
    one window together with the reading of a further request, none of the
    five is answered 429, whatever their CSRF pairs and payloads, and the
    further one is denied by the limiter and answered as a denied request,
    with no call to the mail collaborator. *)
Theorem sixth_request_is_limited env send (ip : string)
    (calls : list (Z * Request)) (now : Z) (request : Request) (w : World) :
  Forall (fun call => clientIp (snd call) = ip) calls ->
  clientIp request = ip ->
  attemptsOf (storeKey ip) (rateLimitStore w) = [] ->
  length calls = Z.to_nat (maxRequests RATE_LIMIT_CONFIG) ->
  withinWindow (List.map fst calls ++ [now]) ->
  let w5 := snd (POSTSeq env send calls w) in
  let r := fst (checkRateLimit now ip (rateLimitStore w5)) in
  Forall (fun response => status response <> 429) (fst (POSTSeq env send calls w))
  /\ allowed r = false
  /\ POST now env send request w5
     = (if validDate (resetTime r) then rateLimited r else failedToSend rangeError,
        afterCheck now request w5).
Proof.
  intros Hsame Hip Hfresh Hlen Hwin w5 r.
  destruct (POSTSeq_limiter env send ip calls w Hsame) as [Hstore Hall].
  apply withinWindow_snoc in Hwin as [Hwin Hnext].
  destruct (seq_admitted ip (List.map fst calls) (rateLimitStore w) [] Hfresh)
    as (Ha & _ & Hs).
  { intros t u []. }
  { exact Hwin. }
  { cbn [length]. rewrite length_map, Hlen. cbn. lia. }
  assert (Hdenied : allowed r = false).
  { subst r w5. rewrite Hstore, check_allowed, Hs. cbn [app].
    rewrite (validAttempts_all now _ Hnext), length_map, Hlen. reflexivity. }
  split; [|split; [exact Hdenied|]].
  - revert Ha Hall.
    generalize (fst (POSTSeq env send calls w)).
    generalize (fst (checkRateLimitSeq ip (List.map fst calls) (rateLimitStore w))).
    generalize (length (List.map fst calls)).
    intros n rs responses Ha Hall. revert n Ha.
    induction Hall as [|response r0 responses rs Hhead _ IH]; intros n Ha;
      [constructor|].
    destruct n as [|n]; [discriminate|]. cbn in Ha. injection Ha as Ha0 Ha.
    constructor; [now apply Hhead | now apply (IH n)].
  - subst r. rewrite <- Hip. apply POST_denied. rewrite Hip. exact Hdenied.
Qed.

Lemma sixth_request_is_limited_witness :
  let good := submission (Some "abc") (Some "abc") (inr (payload (JBool true))) in
  let forged := submission (Some "abc") (Some "xyz") (inr (payload (JBool true))) in
  let empty := submission (Some "abc") (Some "abc") (inr (JObject [])) in
  let calls := [(1000, good); (2000, forged); (3000, empty); (4000, good); (5000, good)] in
  List.map status (fst (POSTSeq env0 sendOk calls world0)) = [200; 403; 400; 200; 200]
  /\ status (fst (POST 6000 env0 sendOk good (snd (POSTSeq env0 sendOk calls world0))))
     = 429.
Proof.
  intros good forged empty calls.
  split; [vm_compute; reflexivity|].
  destruct (sixth_request_is_limited env0 sendOk "1.2.3.4" calls 6000 good world0)
    as (_ & _ & Hsixth).
  - repeat constructor.
  - reflexivity.
  - reflexivity.
  - reflexivity.
  - cbn. repeat (split || constructor); lia.
  - rewrite Hsixth. reflexivity.
Defined.
